(** * A two-dimensional k-d tree: construction and nearest-neighbour search

    Shallow embedding of [src/kdtree.js].

    Modelling choices.
    - Numbers.  The source computes in IEEE 754 binary64.  The development
      is over integers ([Z]): it is the source on integer coordinates of
      magnitude at most [2^25], where every difference, product and sum of
      the source is an integer of magnitude at most [2^53] and so exact, and
      every comparison that of the integers.  A statement that depends on
      the value of a squared distance carries this range ([inExactRange]) as
      a hypothesis.  Module [Binary64] has the same functions over doubles,
      to run the source where rounding or underflow decide the outcome.
    - A reference to a [KDTreeNode] that may be [null] is a value of the
      inductive type [KDTreeNode], whose constructor [null] is the JavaScript
      [null] and whose constructor [Node] carries the four fields the source
      sets on every node ([point], [boundingRect], [leftChild],
      [rightChild]).
    - Arrays are lists.  A function that mutates an array it was given
      returns the final content of that array next to its result.
    - [Array.prototype.sort] is the stable sort of the language standard.
    - Reading a property of [null] or [undefined] throws a [TypeError]; a
      function that can do so returns an [outcome].
    - [new_KDTree] is the constructor [KDTree]; the other functions keep
      their names.

    The file gives the embedding of the source, then the notions the
    specification is worded in, then the proofs, the claims last. *)

From Equations Require Import Equations.
From Stdlib Require Import ZArith List Arith Lia Bool Permutation Sorted Floats.
Import ListNotations.

Local Open Scope Z_scope.

(** ** Data model *)

Record Point : Type := mkPoint { x : Z; y : Z }.

Record Rect : Type := mkRect { minX : Z; maxX : Z; minY : Z; maxY : Z }.

Inductive KDTreeNode : Type :=
| null : KDTreeNode
| Node (point : Point) (boundingRect : Rect)
       (leftChild rightChild : KDTreeNode) : KDTreeNode.

Record KDTree : Type := mkKDTree { rootNode : KDTreeNode }.

Definition AXIS_X : nat := 0.
Definition AXIS_Y : nat := 1.
Definition K : nat := 2.

(** The coordinate of a point on an axis ([axis == AXIS_X ? p.x : p.y]). *)
Definition coord (axis : nat) (p : Point) : Z :=
  if Nat.eqb axis AXIS_X then x p else y p.

(** ** Errors *)

Inductive JsError : Type := TypeError.

Inductive outcome (A : Type) : Type :=
| Ok (a : A)
| Throw (e : JsError).
Arguments Ok {A} a.
Arguments Throw {A} e.

Definition bind {A B : Type} (m : outcome A) (f : A -> outcome B) : outcome B :=
  match m with
  | Ok a => f a
  | Throw e => Throw e
  end.

Notation "v <- m ;; k" := (bind m (fun v => k))
  (at level 61, m at next level, right associativity).

(** ** Array operations *)

(** [a.slice(from, to)] and [a.slice(from)]. *)
Definition slice {A : Type} (from to : nat) (a : list A) : list A :=
  skipn from (firstn to a).

Definition slice_from {A : Type} (from : nat) (a : list A) : list A :=
  skipn from a.

(** [a.splice(i, 0, e)]: insert [e] at index [i]. *)
Definition splice_insert {A : Type} (i : nat) (e : A) (a : list A) : list A :=
  firstn i a ++ e :: skipn i a.

(** [a.pop()], the array that is left. *)
Definition pop {A : Type} (a : list A) : list A := removelast a.

(** [a.sort(cmp)] for a comparator that returns a number: a stable sort,
    written as an insertion sort.  [sort_insert] puts an element in front
    of the first element it does not follow. *)
Fixpoint sort_insert {A : Type} (cmp : A -> A -> Z) (e : A) (a : list A) : list A :=
  match a with
  | [] => [e]
  | h :: t => if cmp e h <=? 0 then e :: a else h :: sort_insert cmp e t
  end.

Fixpoint Array_sort {A : Type} (cmp : A -> A -> Z) (a : list A) : list A :=
  match a with
  | [] => []
  | h :: t => sort_insert cmp h (Array_sort cmp t)
  end.

(** ** Construction *)

(** The comparator of line 57: [a.x - b.x] on [AXIS_X], else [a.y - b.y]. *)
Definition compareOnAxis (axis : nat) (a b : Point) : Z :=
  if Nat.eqb axis AXIS_X then x a - x b else y a - y b.

Definition leftChildBoundingRect (axis : nat) (boundingRect : Rect) (p : Point) : Rect :=
  {| minX := minX boundingRect;
     maxX := if Nat.eqb axis AXIS_X then x p else maxX boundingRect;
     minY := minY boundingRect;
     maxY := if Nat.eqb axis AXIS_Y then y p else maxY boundingRect |}.

Definition rightChildBoundingRect (axis : nat) (boundingRect : Rect) (p : Point) : Rect :=
  {| minX := if Nat.eqb axis AXIS_X then x p else minX boundingRect;
     maxX := maxX boundingRect;
     minY := if Nat.eqb axis AXIS_Y then y p else minY boundingRect;
     maxY := maxY boundingRect |}.

Definition medianIndexOf {A : Type} (a : list A) : nat := (length a / 2)%nat.

(** What the recursion of [createKDTree_] rests on: sorting keeps the
    length, and both slices around the median index are shorter. *)
Lemma sort_insert_length {A : Type} (cmp : A -> A -> Z) e a :
  length (sort_insert cmp e a) = S (length a).
Proof.
  induction a as [|h t IH]; simpl; [reflexivity|].
  destruct (cmp e h <=? 0); simpl; congruence.
Qed.

Lemma Array_sort_length {A : Type} (cmp : A -> A -> Z) a :
  length (Array_sort cmp a) = length a.
Proof.
  induction a as [|h t IH]; simpl; [reflexivity|].
  rewrite sort_insert_length. congruence.
Qed.

Lemma medianIndex_lt {A : Type} (a : list A) :
  a <> [] -> (medianIndexOf a < length a)%nat.
Proof.
  intros Ha. unfold medianIndexOf.
  destruct a as [|h t]; [congruence|].
  apply Nat.div_lt; simpl; lia.
Qed.

Lemma slice_before_shorter {A : Type} (m : nat) (a : list A) :
  (m < length a)%nat -> (length (slice 0 m a) < length a)%nat.
Proof.
  intros Hm. unfold slice. rewrite skipn_O, length_firstn. lia.
Qed.

Lemma slice_after_shorter {A : Type} (m : nat) (a : list A) :
  (m < length a)%nat -> (length (slice_from (m + 1) a) < length a)%nat.
Proof.
  intros Hm. unfold slice_from. rewrite length_skipn. lia.
Qed.

(** [createKDTree_(points, depth, boundingRect)].  The result is the node
    and the content of the array [points] when the call returns: the call
    sorts [points] in place and hands copies ([slice]) to the recursive
    calls, whose own sorting is therefore not seen in [points].

    The recursion is on the length of the array. *)
Equations? createKDTree_ (points : list Point) (depth : nat) (boundingRect : Rect)
  : KDTreeNode * list Point by wf (length points) lt :=
createKDTree_ [] depth boundingRect := (null, []);
createKDTree_ (p0 :: ps) depth boundingRect :=
  let axis := (depth mod K)%nat in
  let sorted := Array_sort (compareOnAxis axis) (p0 :: ps) in
  let medianIndex := medianIndexOf sorted in
  let point := nth medianIndex sorted p0 in
  let leftRect := leftChildBoundingRect axis boundingRect point in
  let rightRect := rightChildBoundingRect axis boundingRect point in
  let leftChild :=
    fst (createKDTree_ (slice 0 medianIndex sorted) (depth + 1) leftRect) in
  let rightChild :=
    fst (createKDTree_ (slice_from (medianIndex + 1) sorted) (depth + 1) rightRect) in
  (Node point boundingRect leftChild rightChild, sorted).
Proof.
  all: assert (Hlen : length sorted = S (length ps))
    by (subst sorted; rewrite sort_insert_length, Array_sort_length; reflexivity).
  all: assert (Hm : (medianIndex < length sorted)%nat)
    by (apply medianIndex_lt; intros E; rewrite E in Hlen; discriminate).
  - rewrite <- Hlen. now apply slice_before_shorter.
  - rewrite <- Hlen. now apply slice_after_shorter.
Qed.

Definition INT_MIN : Z := - 2 ^ 31.
Definition INT_MAX : Z := 2 ^ 31 - 1.

Definition initialBoundingRect : Rect :=
  {| maxX := INT_MIN; minX := INT_MAX; maxY := INT_MIN; minY := INT_MAX |}.

(** The body of the loop of lines 31-36. *)
Definition extendBoundingRect (boundingRect : Rect) (p : Point) : Rect :=
  {| minX := Z.min (minX boundingRect) (x p);
     minY := Z.min (minY boundingRect) (y p);
     maxX := Z.max (maxX boundingRect) (x p);
     maxY := Z.max (maxY boundingRect) (y p) |}.

Definition computeBoundingRect (points : list Point) : Rect :=
  fold_left extendBoundingRect points initialBoundingRect.

(** [new KDTree(points)]: the tree and the content of the caller's array
    afterwards. *)
Definition new_KDTree (points : list Point) : KDTree * list Point :=
  let boundingRect := computeBoundingRect points in
  let r := createKDTree_ points 0 boundingRect in
  ({| rootNode := fst r |}, snd r).

(** ** Search *)

Definition getSquaredEuclidianDistance (x1 y1 x2 y2 : Z) : Z :=
  let dx := x1 - x2 in
  let dy := y1 - y2 in
  dx * dx + dy * dy.

(** An entry of the [results] array: [{node: ..., distance: ...}]. *)
Record SearchResult : Type := mkResult { node : KDTreeNode; distance : Z }.

(** [currNode.point] of a node that is known not to be [null]. *)
Definition pointOf (n : KDTreeNode) : option Point :=
  match n with
  | null => None
  | Node p _ _ _ => Some p
  end.

(** The loop of lines 203-208.  [i] is [insertIndex + 1]; the result is the
    value of [insertIndex + 1] when the loop is left. *)
Fixpoint scanInsertIndex (results : list SearchResult) (insertDistance : Z) (i : nat) : nat :=
  match i with
  | O => O
  | S j =>
      match nth_error results j with
      | Some nearestNeighbourNode =>
          if insertDistance >? distance nearestNeighbourNode
          then S j
          else scanInsertIndex results insertDistance j
      | None => scanInsertIndex results insertDistance j
      end
  end.

(** [insertResult_(results, insertNode, maxResults)]: the content of
    [results] afterwards. *)
Definition insertResult_ (results : list SearchResult) (insertNode : SearchResult)
  (maxResults : Z) : list SearchResult :=
  let insertIndex1 := scanInsertIndex results (distance insertNode) (length results) in
  let results1 := splice_insert insertIndex1 insertNode results in
  if Z.of_nat (length results1) >? maxResults then pop results1 else results1.

(** [results[results.length - 1]]; [None] is [undefined]. *)
Definition lastEntry (results : list SearchResult) : option SearchResult :=
  nth_error results (length results - 1).

(** [opt_consideredPoints.push(p)] when the optional array was passed. *)
Definition pushConsidered (opt_consideredPoints : option (list Point)) (p : Point)
  : option (list Point) :=
  match opt_consideredPoints with
  | Some l => Some (l ++ [p])
  | None => None
  end.

(** The state a search call works on: the [results] array and the optional
    array of visited points. *)
Definition SearchState : Type := (list SearchResult * option (list Point))%type.

(** Lines 165-184: the point of the splitting line nearest to the search
    point within the opposite child's rectangle, and its squared distance. *)
Definition oppositeSquaredDist (axis : nat) (currPoint searchCoord : Point)
  (oppositeRect : Rect) : Z :=
  let toX :=
    if Nat.eqb axis AXIS_X then x currPoint
    else if x searchCoord <? minX oppositeRect then minX oppositeRect
    else if x searchCoord >? maxX oppositeRect then maxX oppositeRect
    else x searchCoord in
  let toY :=
    if Nat.eqb axis AXIS_X then
      if y searchCoord <? minY oppositeRect then minY oppositeRect
      else if y searchCoord >? maxY oppositeRect then maxY oppositeRect
      else y searchCoord
    else y currPoint in
  getSquaredEuclidianDistance (x searchCoord) (y searchCoord) toX toY.

(** [getNearestNeighbours_(currNode, searchCoord, depth, results, maxResults,
    opt_consideredPoints)].  [currNode.point] throws when [currNode] is
    [null]; [results[results.length - 1].distance] throws when [results] is
    empty. *)
Fixpoint getNearestNeighbours_ (currNode : KDTreeNode) (searchCoord : Point)
  (depth : nat) (results : list SearchResult) (maxResults : Z)
  (opt_consideredPoints : option (list Point)) {struct currNode}
  : outcome SearchState :=
  match currNode with
  | null => Throw TypeError
  | Node point boundingRect leftChild rightChild =>
      let considered1 := pushConsidered opt_consideredPoints point in
      let axis := (depth mod K)%nat in
      let currNodeDistanceToDesiredCoord :=
        getSquaredEuclidianDistance (x searchCoord) (y searchCoord) (x point) (y point) in
      let bestSeen :=
        {| node := currNode; distance := currNodeDistanceToDesiredCoord |} in
      let results1 := insertResult_ results bestSeen maxResults in
      let searchNodeSplittingCoord := coord axis searchCoord in
      let currNodeSplittingCoord := coord axis point in
      let searchLeft := searchNodeSplittingCoord <? currNodeSplittingCoord in
      let targetChild := if searchLeft then leftChild else rightChild in
      let oppositeChild := if searchLeft then rightChild else leftChild in
      st2 <- match targetChild with
             | null => Ok (results1, considered1)
             | Node _ _ _ _ =>
                 getNearestNeighbours_ targetChild searchCoord (depth + 1)
                   results1 maxResults considered1
             end ;;
      match oppositeChild with
      | null => Ok st2
      | Node _ oppositeRect _ _ =>
          let squaredDist := oppositeSquaredDist axis point searchCoord oppositeRect in
          match lastEntry (fst st2) with
          | None => Throw TypeError
          | Some worst =>
              if squaredDist <=? distance worst
              then getNearestNeighbours_ oppositeChild searchCoord (depth + 1)
                     (fst st2) maxResults (snd st2)
              else Ok st2
          end
      end
  end.

(** The points of the entries of a [results] array (lines 122-125). *)
Definition extractPoints (results : list SearchResult) : outcome (list Point) :=
  fold_left
    (fun acc r =>
       points <- acc ;;
       match pointOf (node r) with
       | Some p => Ok (points ++ [p])
       | None => Throw TypeError
       end)
    results (Ok []).

(** [tree.getNearestNeighbour(searchCoord, opt_consideredPoints)]: the
    returned value ([None] for [null]) and the optional array afterwards. *)
Definition getNearestNeighbour (tree : KDTree) (searchCoord : Point)
  (opt_consideredPoints : option (list Point))
  : outcome (option Point * option (list Point)) :=
  st <- getNearestNeighbours_ (rootNode tree) searchCoord 0 [] 1 opt_consideredPoints ;;
  match fst st with
  | [] => Ok (None, snd st)
  | r :: _ =>
      match pointOf (node r) with
      | Some p => Ok (Some p, snd st)
      | None => Throw TypeError
      end
  end.

(** [tree.getNearestNeighbours(searchCoord, maxResults, opt_consideredPoints)]. *)
Definition getNearestNeighbours (tree : KDTree) (searchCoord : Point)
  (maxResults : Z) (opt_consideredPoints : option (list Point))
  : outcome (list Point * option (list Point)) :=
  st <- getNearestNeighbours_ (rootNode tree) searchCoord 0 [] maxResults
          opt_consideredPoints ;;
  points <- extractPoints (fst st) ;;
  Ok (points, snd st).

(** ** Specification-level notions *)

(** Squared Euclidean distance between two points. *)
Definition sqDist (q p : Point) : Z :=
  getSquaredEuclidianDistance (x q) (y q) (x p) (y p).

(** The points stored in a tree, the node first. *)
Fixpoint pointsOf (t : KDTreeNode) : list Point :=
  match t with
  | null => []
  | Node p _ l r => p :: pointsOf l ++ pointsOf r
  end.

(** The entry the search makes for each node of a tree. *)
Fixpoint entriesOf (q : Point) (t : KDTreeNode) : list SearchResult :=
  match t with
  | null => []
  | Node p _ l r =>
      {| node := t; distance := sqDist q p |} :: entriesOf q l ++ entriesOf q r
  end.

(** The point of an entry's node. *)
Definition entryPoint (r : SearchResult) : Point :=
  match node r with
  | Node p _ _ _ => p
  | null => mkPoint 0 0
  end.

Definition rectOf (t : KDTreeNode) : option Rect :=
  match t with
  | null => None
  | Node _ rect _ _ => Some rect
  end.

Definition rectContainsPoint (r : Rect) (p : Point) : Prop :=
  minX r <= x p /\ x p <= maxX r /\ minY r <= y p /\ y p <= maxY r.

(** The four bound comparisons of the containment check. *)
Definition rectContainsRect (outer inner : Rect) : Prop :=
  minX outer <= minX inner /\ maxX inner <= maxX outer /\
  minY outer <= minY inner /\ maxY inner <= maxY outer.

(** A rectangle with the maximum, or the minimum, of one axis replaced. *)
Definition clipMax (axis : nat) (r : Rect) (v : Z) : Rect :=
  match axis with
  | O => {| minX := minX r; maxX := v; minY := minY r; maxY := maxY r |}
  | _ => {| minX := minX r; maxX := maxX r; minY := minY r; maxY := v |}
  end.

Definition clipMin (axis : nat) (r : Rect) (v : Z) : Rect :=
  match axis with
  | O => {| minX := v; maxX := maxX r; minY := minY r; maxY := maxY r |}
  | _ => {| minX := minX r; maxX := maxX r; minY := v; maxY := maxY r |}
  end.

(** Invariant 3 of the data model, for the subtree [t] at depth [depth]:
    a child's rectangle is its parent's, clipped on the parent's splitting
    axis at the parent's point, and lies inside the parent's. *)
Definition childRectOk (parentRect expected : Rect) (child : KDTreeNode) : Prop :=
  match child with
  | null => True
  | Node _ childRect _ _ =>
      childRect = expected /\ rectContainsRect parentRect childRect
  end.

Fixpoint rectsNested (depth : nat) (t : KDTreeNode) : Prop :=
  match t with
  | null => True
  | Node p rect l r =>
      let axis := (depth mod 2)%nat in
      childRectOk rect (clipMax axis rect (coord axis p)) l /\
      childRectOk rect (clipMin axis rect (coord axis p)) r /\
      rectsNested (S depth) l /\ rectsNested (S depth) r
  end.

(** What the search relies on: every node's point lies in the node's
    rectangle, the points of a child lie in the rectangle the construction
    derives for that child, and an existing child carries that rectangle. *)
Fixpoint wellFormed (depth : nat) (t : KDTreeNode) : Prop :=
  match t with
  | null => True
  | Node p rect l r =>
      let axis := (depth mod K)%nat in
      rectContainsPoint rect p /\
      Forall (rectContainsPoint (leftChildBoundingRect axis rect p)) (pointsOf l) /\
      Forall (rectContainsPoint (rightChildBoundingRect axis rect p)) (pointsOf r) /\
      (l <> null -> rectOf l = Some (leftChildBoundingRect axis rect p)) /\
      (r <> null -> rectOf r = Some (rightChildBoundingRect axis rect p)) /\
      wellFormed (S depth) l /\ wellFormed (S depth) r
  end.

Definition sortedByDistance (rs : list SearchResult) : Prop :=
  StronglySorted (fun a b => distance a <= distance b) rs.

(** [rs] holds the best [k] of the entries [seen]: it is sorted, has at most
    [k] entries, and the entries of [seen] it leaves out are at least as far
    as all it holds, none being left out unless [rs] is full. *)
Definition bestOf (k : Z) (seen rs : list SearchResult) : Prop :=
  sortedByDistance rs /\
  Z.of_nat (length rs) <= k /\
  exists rest,
    Permutation seen (rs ++ rest) /\
    (rest <> [] -> Z.of_nat (length rs) = k) /\
    (forall a e, In a rs -> In e rest -> distance a <= distance e).

(** Modelled from the spec's words (section 8, agreement with brute force):
    a linear scan over the points, in the order [points] lists them, that
    keeps the [k] smallest distances; of two points at the same distance
    the one scanned first comes first. *)
Definition bruteForce (points : list Point) (q : Point) (k : nat) : list Point :=
  firstn k (Array_sort (fun a b => sqDist q a - sqDist q b) points).

(** Modelled from the spec's words (section 4.2, step 4): the query
    clamped to a rectangle, and the squared distance to it. *)
Definition clamp (lo hi v : Z) : Z := Z.max lo (Z.min v hi).

Definition rectMinSquaredDist (q : Point) (r : Rect) : Z :=
  sqDist q {| x := clamp (minX r) (maxX r) (x q); y := clamp (minY r) (maxY r) (y q) |}.

(** Section 4.2, step 4: recurse into the far child when the lower bound is
    at most the worst distance held, or the result set is not full. *)
Definition farChildWorthSearching (q : Point) (farRect : Rect)
  (results : list SearchResult) (k : Z) : bool :=
  (Z.of_nat (length results) <? k) ||
  match lastEntry results with
  | Some worst => rectMinSquaredDist q farRect <=? distance worst
  | None => false
  end.

(** The search of the source with the test of line 185 replaced by
    [farChildWorthSearching]. *)
Fixpoint searchWithSpecPruning (currNode : KDTreeNode) (searchCoord : Point)
  (depth : nat) (results : list SearchResult) (maxResults : Z)
  (opt_consideredPoints : option (list Point)) {struct currNode} : SearchState :=
  match currNode with
  | null => (results, opt_consideredPoints)
  | Node point boundingRect leftChild rightChild =>
      let considered1 := pushConsidered opt_consideredPoints point in
      let axis := (depth mod K)%nat in
      let bestSeen := {| node := currNode; distance := sqDist searchCoord point |} in
      let results1 := insertResult_ results bestSeen maxResults in
      let searchLeft := coord axis searchCoord <? coord axis point in
      let nearChild := if searchLeft then leftChild else rightChild in
      let farChild := if searchLeft then rightChild else leftChild in
      let st2 :=
        match nearChild with
        | null => (results1, considered1)
        | Node _ _ _ _ =>
            searchWithSpecPruning nearChild searchCoord (depth + 1)
              results1 maxResults considered1
        end in
      match farChild with
      | null => st2
      | Node _ farRect _ _ =>
          if farChildWorthSearching searchCoord farRect (fst st2) maxResults
          then searchWithSpecPruning farChild searchCoord (depth + 1)
                 (fst st2) maxResults (snd st2)
          else st2
      end
  end.

(** Modelled from the spec's words (section 4.2, insertion policy): scanning
    back from the worst entry, stop at the first entry whose distance is at
    most the new one; insert after it; drop the last entry if the list is
    longer than [k]. *)
Fixpoint scanInsertIndexSpec (results : list SearchResult) (insertDistance : Z) (i : nat) : nat :=
  match i with
  | O => O
  | S j =>
      match nth_error results j with
      | Some r =>
          if distance r <=? insertDistance then S j
          else scanInsertIndexSpec results insertDistance j
      | None => scanInsertIndexSpec results insertDistance j
      end
  end.

Definition insertResultSpec (results : list SearchResult) (insertNode : SearchResult)
  (k : Z) : list SearchResult :=
  let results1 :=
    splice_insert (scanInsertIndexSpec results (distance insertNode) (length results))
      insertNode results in
  if Z.of_nat (length results1) >? k then pop results1 else results1.

(** Modelled from the spec's words (section 4.1): the bounding rectangle of
    a non-empty point sequence, the minimum and maximum per axis. *)
Definition boundingBox (p0 : Point) (ps : list Point) : Rect :=
  {| minX := fold_left Z.min (map x ps) (x p0);
     maxX := fold_left Z.max (map x ps) (x p0);
     minY := fold_left Z.min (map y ps) (y p0);
     maxY := fold_left Z.max (map y ps) (y p0) |}.

(** Whether the search, going down the near children from [t], comes to a
    node that has a far child. *)
Fixpoint farChildOnPath (t : KDTreeNode) (q : Point) (depth : nat) : bool :=
  match t with
  | null => false
  | Node p _ l r =>
      let axis := (depth mod K)%nat in
      let searchLeft := coord axis q <? coord axis p in
      let targetChild := if searchLeft then l else r in
      let oppositeChild := if searchLeft then r else l in
      farChildOnPath targetChild q (depth + 1) ||
      match oppositeChild with
      | null => false
      | Node _ _ _ _ => true
      end
  end.

(** The array after the [splice] of line 210. *)
Definition placed (rs : list SearchResult) (e : SearchResult) : list SearchResult :=
  splice_insert (scanInsertIndex rs (distance e) (length rs)) e rs.

Definition sortedByDistanceTo (q : Point) (ps : list Point) : Prop :=
  StronglySorted (fun a b => sqDist q a <= sqDist q b) ps.

(** [pts] is a choice of the [k] points of [points] nearest to [q]: [k]
    of the points, nearest first, none of the others nearer than any of
    them. *)
Definition nearestSelection (points : list Point) (q : Point) (k : Z)
  (pts : list Point) : Prop :=
  Z.of_nat (length pts) = Z.min k (Z.of_nat (length points)) /\
  sortedByDistanceTo q pts /\
  exists rest,
    Permutation points (pts ++ rest) /\
    (forall a b, In a pts -> In b rest -> sqDist q a <= sqDist q b).

(** The search of the source returns, takes the far branch exactly as the
    specification words it, and leaves the best [k] of all it was given. *)
Definition searchOk (q : Point) (t : KDTreeNode) : Prop :=
  forall depth k seen rs c,
    1 <= k -> wellFormed depth t -> t <> null -> bestOf k seen rs ->
    getNearestNeighbours_ t q depth rs k c
    = Ok (searchWithSpecPruning t q depth rs k c) /\
    bestOf k (seen ++ entriesOf q t) (fst (searchWithSpecPruning t q depth rs k c)).

(** A node without children, and the tree of the five points of the
    specification's scenario. *)
Definition leaf (px py : Z) : KDTreeNode :=
  Node (mkPoint px py) (mkRect 0 5 0 5) null null.

Definition fiveTree : KDTree :=
  fst (new_KDTree [mkPoint 0 0; mkPoint 1 1; mkPoint 2 2; mkPoint 5 5; mkPoint 0 5]).

(** ** Shape of a tree *)

Definition size (t : KDTreeNode) : nat := length (pointsOf t).

Fixpoint height (t : KDTreeNode) : nat :=
  match t with
  | null => 0
  | Node _ _ l r => S (Nat.max (height l) (height r))
  end.

(** At every node the left subtree holds as many points as the right one,
    or one more. *)
Fixpoint balanced (t : KDTreeNode) : Prop :=
  match t with
  | null => True
  | Node _ _ l r =>
      (size r <= size l <= size r + 1)%nat /\ balanced l /\ balanced r
  end.

(** At every node, at depth [depth], no point of the left subtree is larger
    than the node's point on the node's splitting axis and no point of the
    right subtree is smaller. *)
Fixpoint splitOrdered (depth : nat) (t : KDTreeNode) : Prop :=
  match t with
  | null => True
  | Node p _ l r =>
      let axis := (depth mod K)%nat in
      Forall (fun a => coord axis a <= coord axis p) (pointsOf l) /\
      Forall (fun a => coord axis p <= coord axis a) (pointsOf r) /\
      splitOrdered (S depth) l /\ splitOrdered (S depth) r
  end.

(** Every node's rectangle bounds all points of the subtree below it. *)
Fixpoint rectsBound (t : KDTreeNode) : Prop :=
  match t with
  | null => True
  | Node _ rect l r =>
      Forall (rectContainsPoint rect) (pointsOf t) /\ rectsBound l /\ rectsBound r
  end.

(** The height of a balanced tree of [n] points: [floor (log2 n) + 1]. *)
Definition balancedHeight (n : nat) : nat :=
  match n with
  | O => O
  | S _ => S (Nat.log2 n)
  end.

(** What a search call does with the array of visited points: the result
    list is the one of the call without the array; the array gets the
    points of the visited nodes appended, the current node's first, each
    node of the tree at most once; an entry of the result list that was not
    there before is of a visited node. *)
Definition traceFramed (q : Point) (k : Z) (t : KDTreeNode) : Prop :=
  forall depth rs l,
    match getNearestNeighbours_ t q depth rs k None with
    | Throw e => getNearestNeighbours_ t q depth rs k (Some l) = Throw e
    | Ok (rs', c0) =>
        c0 = None /\
        exists v,
          getNearestNeighbours_ t q depth rs k (Some l) = Ok (rs', Some (l ++ v)) /\
          hd_error v = pointOf t /\
          (forall a, In a rs' ->
                     In a rs \/
                     (In (entryPoint a) v /\ pointOf (node a) = Some (entryPoint a))) /\
          exists rest, Permutation (pointsOf t) (v ++ rest)
    end.

(** The integer coordinates on which the arithmetic of the source is
    exact: of magnitude at most [2^25], so that a squared distance is at most
    [2^53]. *)
Definition EXACT_BOUND : Z := 2 ^ 25.

Definition inExactRange (p : Point) : Prop :=
  - EXACT_BOUND <= x p <= EXACT_BOUND /\ - EXACT_BOUND <= y p <= EXACT_BOUND.

(** ** The source in binary64

    The same functions with the numbers of the source, IEEE 754 binary64:
    every [-], [*], [+] rounds, every comparison is the one of doubles.
    [maxResults] and [depth] stay integers.  The module serves to run the
    source on inputs where rounding or underflow decide the outcome. *)
Module Binary64.

Local Open Scope float_scope.

Record Point : Type := mkPoint { x : float; y : float }.

Record Rect : Type := mkRect { minX : float; maxX : float; minY : float; maxY : float }.

Inductive KDTreeNode : Type :=
| null : KDTreeNode
| Node (point : Point) (boundingRect : Rect)
       (leftChild rightChild : KDTreeNode) : KDTreeNode.

Record KDTree : Type := mkKDTree { rootNode : KDTreeNode }.

Definition coord (axis : nat) (p : Point) : float :=
  if Nat.eqb axis AXIS_X then x p else y p.

(** [Math.min] and [Math.max]: [NaN] if an argument is [NaN]; of the two
    zeros the negative one is the smaller. *)
Definition Math_min (a b : float) : float :=
  if is_nan a || is_nan b then nan
  else if a <? b then a
  else if b <? a then b
  else if get_sign a then a else b.

Definition Math_max (a b : float) : float :=
  if is_nan a || is_nan b then nan
  else if a <? b then b
  else if b <? a then a
  else if get_sign a then b else a.

(** [a.sort(cmp)]: stable; [e] goes behind [h] only when [cmp(e, h) > 0]
    (a comparator result of 0 or [NaN] keeps the order). *)
Fixpoint sort_insert {A : Type} (cmp : A -> A -> float) (e : A) (a : list A) : list A :=
  match a with
  | [] => [e]
  | h :: t => if 0 <? cmp e h then h :: sort_insert cmp e t else e :: a
  end.

Fixpoint Array_sort {A : Type} (cmp : A -> A -> float) (a : list A) : list A :=
  match a with
  | [] => []
  | h :: t => sort_insert cmp h (Array_sort cmp t)
  end.

Definition compareOnAxis (axis : nat) (a b : Point) : float :=
  if Nat.eqb axis AXIS_X then x a - x b else y a - y b.

Definition leftChildBoundingRect (axis : nat) (boundingRect : Rect) (p : Point) : Rect :=
  {| minX := minX boundingRect;
     maxX := if Nat.eqb axis AXIS_X then x p else maxX boundingRect;
     minY := minY boundingRect;
     maxY := if Nat.eqb axis AXIS_Y then y p else maxY boundingRect |}.

Definition rightChildBoundingRect (axis : nat) (boundingRect : Rect) (p : Point) : Rect :=
  {| minX := if Nat.eqb axis AXIS_X then x p else minX boundingRect;
     maxX := maxX boundingRect;
     minY := if Nat.eqb axis AXIS_Y then y p else minY boundingRect;
     maxY := maxY boundingRect |}.

Lemma sort_insert_length64 {A : Type} (cmp : A -> A -> float) e a :
  length (sort_insert cmp e a) = S (length a).
Proof.
  induction a as [|h t IH]; simpl; [reflexivity|].
  destruct (0 <? cmp e h); simpl; congruence.
Qed.

Lemma Array_sort_length64 {A : Type} (cmp : A -> A -> float) a :
  length (Array_sort cmp a) = length a.
Proof.
  induction a as [|h t IH]; simpl; [reflexivity|].
  rewrite sort_insert_length64. congruence.
Qed.

Equations? createKDTree_ (points : list Point) (depth : nat) (boundingRect : Rect)
  : KDTreeNode * list Point by wf (length points) lt :=
createKDTree_ [] depth boundingRect := (null, []);
createKDTree_ (p0 :: ps) depth boundingRect :=
  let axis := (depth mod K)%nat in
  let sorted := Array_sort (compareOnAxis axis) (p0 :: ps) in
  let medianIndex := medianIndexOf sorted in
  let point := nth medianIndex sorted p0 in
  let leftRect := leftChildBoundingRect axis boundingRect point in
  let rightRect := rightChildBoundingRect axis boundingRect point in
  let leftChild :=
    fst (createKDTree_ (slice 0 medianIndex sorted) (depth + 1) leftRect) in
  let rightChild :=
    fst (createKDTree_ (slice_from (medianIndex + 1) sorted) (depth + 1) rightRect) in
  (Node point boundingRect leftChild rightChild, sorted).
Proof.
  all: assert (Hlen : length sorted = S (length ps))
    by (subst sorted; rewrite sort_insert_length64, Array_sort_length64; reflexivity).
  all: assert (Hm : (medianIndex < length sorted)%nat)
    by (apply medianIndex_lt; intros E; rewrite E in Hlen; discriminate).
  - rewrite <- Hlen. now apply slice_before_shorter.
  - rewrite <- Hlen. now apply slice_after_shorter.
Qed.

Definition initialBoundingRect : Rect :=
  {| maxX := - 2147483648; minX := 2147483648 - 1;
     maxY := - 2147483648; minY := 2147483648 - 1 |}.

Definition extendBoundingRect (boundingRect : Rect) (p : Point) : Rect :=
  {| minX := Math_min (minX boundingRect) (x p);
     minY := Math_min (minY boundingRect) (y p);
     maxX := Math_max (maxX boundingRect) (x p);
     maxY := Math_max (maxY boundingRect) (y p) |}.

Definition computeBoundingRect (points : list Point) : Rect :=
  fold_left extendBoundingRect points initialBoundingRect.

Definition new_KDTree (points : list Point) : KDTree * list Point :=
  let boundingRect := computeBoundingRect points in
  let r := createKDTree_ points 0 boundingRect in
  ({| rootNode := fst r |}, snd r).

Definition getSquaredEuclidianDistance (x1 y1 x2 y2 : float) : float :=
  let dx := x1 - x2 in
  let dy := y1 - y2 in
  dx * dx + dy * dy.

Record SearchResult : Type := mkResult { node : KDTreeNode; distance : float }.

Definition pointOf (n : KDTreeNode) : option Point :=
  match n with
  | null => None
  | Node p _ _ _ => Some p
  end.

Fixpoint scanInsertIndex (results : list SearchResult) (insertDistance : float) (i : nat) : nat :=
  match i with
  | O => O
  | S j =>
      match nth_error results j with
      | Some nearestNeighbourNode =>
          if distance nearestNeighbourNode <? insertDistance
          then S j
          else scanInsertIndex results insertDistance j
      | None => scanInsertIndex results insertDistance j
      end
  end.

Definition insertResult_ (results : list SearchResult) (insertNode : SearchResult)
  (maxResults : Z) : list SearchResult :=
  let insertIndex1 := scanInsertIndex results (distance insertNode) (length results) in
  let results1 := splice_insert insertIndex1 insertNode results in
  if (Z.of_nat (length results1) >? maxResults)%Z then pop results1 else results1.

Definition lastEntry (results : list SearchResult) : option SearchResult :=
  nth_error results (length results - 1).

Definition pushConsidered (opt_consideredPoints : option (list Point)) (p : Point)
  : option (list Point) :=
  match opt_consideredPoints with
  | Some l => Some (l ++ [p])
  | None => None
  end.

Definition SearchState : Type := (list SearchResult * option (list Point))%type.

Definition oppositeSquaredDist (axis : nat) (currPoint searchCoord : Point)
  (oppositeRect : Rect) : float :=
  let toX :=
    if Nat.eqb axis AXIS_X then x currPoint
    else if x searchCoord <? minX oppositeRect then minX oppositeRect
    else if maxX oppositeRect <? x searchCoord then maxX oppositeRect
    else x searchCoord in
  let toY :=
    if Nat.eqb axis AXIS_X then
      if y searchCoord <? minY oppositeRect then minY oppositeRect
      else if maxY oppositeRect <? y searchCoord then maxY oppositeRect
      else y searchCoord
    else y currPoint in
  getSquaredEuclidianDistance (x searchCoord) (y searchCoord) toX toY.

Fixpoint getNearestNeighbours_ (currNode : KDTreeNode) (searchCoord : Point)
  (depth : nat) (results : list SearchResult) (maxResults : Z)
  (opt_consideredPoints : option (list Point)) {struct currNode}
  : outcome SearchState :=
  match currNode with
  | null => Throw TypeError
  | Node point boundingRect leftChild rightChild =>
      let considered1 := pushConsidered opt_consideredPoints point in
      let axis := (depth mod K)%nat in
      let currNodeDistanceToDesiredCoord :=
        getSquaredEuclidianDistance (x searchCoord) (y searchCoord) (x point) (y point) in
      let bestSeen :=
        {| node := currNode; distance := currNodeDistanceToDesiredCoord |} in
      let results1 := insertResult_ results bestSeen maxResults in
      let searchNodeSplittingCoord := coord axis searchCoord in
      let currNodeSplittingCoord := coord axis point in
      let searchLeft := searchNodeSplittingCoord <? currNodeSplittingCoord in
      let targetChild := if searchLeft then leftChild else rightChild in
      let oppositeChild := if searchLeft then rightChild else leftChild in
      st2 <- match targetChild with
             | null => Ok (results1, considered1)
             | Node _ _ _ _ =>
                 getNearestNeighbours_ targetChild searchCoord (depth + 1)
                   results1 maxResults considered1
             end ;;
      match oppositeChild with
      | null => Ok st2
      | Node _ oppositeRect _ _ =>
          let squaredDist := oppositeSquaredDist axis point searchCoord oppositeRect in
          match lastEntry (fst st2) with
          | None => Throw TypeError
          | Some worst =>
              if squaredDist <=? distance worst
              then getNearestNeighbours_ oppositeChild searchCoord (depth + 1)
                     (fst st2) maxResults (snd st2)
              else Ok st2
          end
      end
  end.

Definition extractPoints (results : list SearchResult) : outcome (list Point) :=
  fold_left
    (fun acc r =>
       points <- acc ;;
       match pointOf (node r) with
       | Some p => Ok (points ++ [p])
       | None => Throw TypeError
       end)
    results (Ok []).

Definition getNearestNeighbour (tree : KDTree) (searchCoord : Point)
  (opt_consideredPoints : option (list Point))
  : outcome (option Point * option (list Point)) :=
  st <- getNearestNeighbours_ (rootNode tree) searchCoord 0 [] 1 opt_consideredPoints ;;
  match fst st with
  | [] => Ok (None, snd st)
  | r :: _ =>
      match pointOf (node r) with
      | Some p => Ok (Some p, snd st)
      | None => Throw TypeError
      end
  end.

Definition getNearestNeighbours (tree : KDTree) (searchCoord : Point)
  (maxResults : Z) (opt_consideredPoints : option (list Point))
  : outcome (list Point * option (list Point)) :=
  st <- getNearestNeighbours_ (rootNode tree) searchCoord 0 [] maxResults
          opt_consideredPoints ;;
  points <- extractPoints (fst st) ;;
  Ok (points, snd st).

End Binary64.

(** * Proofs *)

(** ** Concrete runs *)

Example build_five :
  fst (new_KDTree [mkPoint 0 0; mkPoint 1 1; mkPoint 2 2; mkPoint 5 5; mkPoint 0 5])
  = mkKDTree
      (Node (mkPoint 1 1) (mkRect 0 5 0 5)
         (Node (mkPoint 0 5) (mkRect 0 1 0 5)
            (Node (mkPoint 0 0) (mkRect 0 1 0 5) null null) null)
         (Node (mkPoint 5 5) (mkRect 1 5 0 5)
            (Node (mkPoint 2 2) (mkRect 1 5 0 5) null null) null)).
Proof. reflexivity. Qed.

Example search_five :
  getNearestNeighbours fiveTree (mkPoint 1 0) 2 (Some [])
  = Ok ([mkPoint 0 0; mkPoint 1 1],
        Some [mkPoint 1 1; mkPoint 5 5; mkPoint 2 2; mkPoint 0 5; mkPoint 0 0]).
Proof. reflexivity. Qed.

(** The same run in binary64. *)
Example search_five_binary64 :
  Binary64.getNearestNeighbours
    (fst (Binary64.new_KDTree
            [Binary64.mkPoint 0 0; Binary64.mkPoint 1 1; Binary64.mkPoint 2 2;
             Binary64.mkPoint 5 5; Binary64.mkPoint 0 5]))
    (Binary64.mkPoint 1 0) 2 None
  = Ok ([Binary64.mkPoint 0 0; Binary64.mkPoint 1 1], None).
Proof. reflexivity. Qed.

(** ** Lists and sorting *)

Section SortedLists.
Context {A : Type} (R : A -> A -> Prop).

Lemma StronglySorted_app_iff (l1 l2 : list A) :
  StronglySorted R (l1 ++ l2) <->
  StronglySorted R l1 /\ StronglySorted R l2 /\
  (forall a b, In a l1 -> In b l2 -> R a b).
Proof.
  induction l1 as [|h t IH]; simpl.
  - split.
    + intros H. repeat split; [constructor | assumption | intros ? ? []].
    + intros (_ & H & _). exact H.
  - split.
    + intros H. inversion H as [|? ? Hs Hf]; subst.
      apply IH in Hs. destruct Hs as (Ht & H2 & Hc).
      rewrite Forall_app in Hf. destruct Hf as [Hf1 Hf2].
      repeat split; [constructor; assumption | assumption |].
      intros a b [<- | Ha] Hb.
      * rewrite Forall_forall in Hf2. now apply Hf2.
      * now apply Hc.
    + intros (H1 & H2 & Hc). inversion H1 as [|? ? Hs Hf]; subst.
      constructor.
      * apply IH. repeat split; try assumption.
        intros a b Ha Hb. apply Hc; [now right | assumption].
      * rewrite Forall_app. split; [assumption |].
        rewrite Forall_forall. intros b Hb. apply Hc; [now left | assumption].
Qed.

Lemma StronglySorted_singleton (a : A) : StronglySorted R [a].
Proof. repeat constructor. Qed.
End SortedLists.

Section ArraySort.
Context {A : Type} (key : A -> Z) (cmp : A -> A -> Z).
Hypothesis cmp_key : forall a b, cmp a b <= 0 <-> key a <= key b.

Let byKey (a b : A) : Prop := key a <= key b.

Lemma sort_insert_perm e a : Permutation (e :: a) (sort_insert cmp e a).
Proof.
  induction a as [|h t IH]; simpl; [reflexivity|].
  destruct (cmp e h <=? 0); [reflexivity|].
  rewrite perm_swap. now constructor.
Qed.

Lemma Array_sort_perm a : Permutation a (Array_sort cmp a).
Proof.
  induction a as [|h t IH]; simpl; [constructor|].
  rewrite <- sort_insert_perm. now constructor.
Qed.

Lemma sort_insert_sorted e a :
  StronglySorted byKey a -> StronglySorted byKey (sort_insert cmp e a).
Proof.
  induction a as [|h t IH]; simpl; intros Hs.
  - apply StronglySorted_singleton.
  - inversion Hs as [|? ? Ht Hf]; subst.
    destruct (Z.leb_spec (cmp e h) 0) as [Hle | Hgt].
    + apply cmp_key in Hle. constructor; [assumption|].
      constructor; [exact Hle|].
      eapply Forall_impl; [|exact Hf]. unfold byKey. intros; simpl in *; lia.
    + assert (Hhe : key h <= key e).
      { destruct (Z.le_gt_cases (key e) (key h)) as [Hc|Hc]; [|lia].
        apply cmp_key in Hc. lia. }
      constructor; [now apply IH|].
      eapply Permutation_Forall; [apply sort_insert_perm|].
      constructor; assumption.
Qed.

Lemma Array_sort_sorted a : StronglySorted byKey (Array_sort cmp a).
Proof.
  induction a as [|h t IH]; simpl; [constructor|].
  now apply sort_insert_sorted.
Qed.

Lemma Array_sort_sorted_id a : StronglySorted byKey a -> Array_sort cmp a = a.
Proof.
  induction a as [|h t IH]; simpl; intros Hs; [reflexivity|].
  inversion Hs as [|? ? Ht Hf]; subst.
  rewrite (IH Ht). destruct t as [|h' t']; [reflexivity|]. simpl.
  inversion Hf as [|? ? Hh _]; subst.
  apply cmp_key in Hh. apply Z.leb_le in Hh. now rewrite Hh.
Qed.
End ArraySort.

Lemma compareOnAxis_key (axis : nat) (a b : Point) :
  compareOnAxis axis a b <= 0 <-> coord axis a <= coord axis b.
Proof. unfold compareOnAxis, coord. destruct (Nat.eqb axis AXIS_X); lia. Qed.

Lemma sortedList_unique (l1 l2 : list Z) :
  StronglySorted Z.le l1 -> StronglySorted Z.le l2 -> Permutation l1 l2 -> l1 = l2.
Proof.
  revert l2. induction l1 as [|a t IH]; intros l2 H1 H2 HP.
  - apply Permutation_nil in HP. now subst.
  - destruct l2 as [|b t2].
    + apply Permutation_sym, Permutation_nil in HP. discriminate.
    + inversion H1 as [|? ? Hs1 Hf1]; inversion H2 as [|? ? Hs2 Hf2]; subst.
      assert (Hab : a = b).
      { assert (Ha : In a (b :: t2))
          by (eapply Permutation_in; [exact HP | now left]).
        assert (Hb : In b (a :: t))
          by (eapply Permutation_in; [symmetry; exact HP | now left]).
        rewrite Forall_forall in Hf1, Hf2.
        destruct Ha as [Ha | Ha]; [congruence|].
        destruct Hb as [Hb | Hb]; [congruence|].
        apply Hf2 in Ha. apply Hf1 in Hb. lia. }
      subst b. f_equal. apply IH; try assumption.
      now apply Permutation_cons_inv in HP.
Qed.

Lemma nth_split_slices {A : Type} (l : list A) (m : nat) (d : A) :
  (m < length l)%nat ->
  l = slice 0 m l ++ nth m l d :: slice_from (m + 1) l.
Proof.
  unfold slice, slice_from. rewrite skipn_O. revert m.
  induction l as [|h t IH]; intros m Hm; simpl in Hm; [lia|].
  destruct m as [|m]; simpl; [reflexivity|].
  f_equal. apply IH. lia.
Qed.

Lemma axis_cases (depth : nat) : (depth mod K = 0 \/ depth mod K = 1)%nat.
Proof.
  unfold K. pose proof (Nat.mod_upper_bound depth 2). lia.
Qed.

(** ** Construction *)

Lemma leftRect_is_clipMax (depth : nat) (rect : Rect) (p : Point) :
  leftChildBoundingRect (depth mod K) rect p
  = clipMax (depth mod 2) rect (coord (depth mod 2) p).
Proof.
  destruct (axis_cases depth) as [E | E]; unfold K in *; rewrite E; reflexivity.
Qed.

Lemma rightRect_is_clipMin (depth : nat) (rect : Rect) (p : Point) :
  rightChildBoundingRect (depth mod K) rect p
  = clipMin (depth mod 2) rect (coord (depth mod 2) p).
Proof.
  destruct (axis_cases depth) as [E | E]; unfold K in *; rewrite E; reflexivity.
Qed.

Lemma leftRect_contains (axis : nat) (rect : Rect) (pivot a : Point) :
  (axis = 0 \/ axis = 1)%nat ->
  rectContainsPoint rect a -> coord axis a <= coord axis pivot ->
  rectContainsPoint (leftChildBoundingRect axis rect pivot) a.
Proof.
  unfold rectContainsPoint, leftChildBoundingRect, coord.
  intros [-> | ->] (H1 & H2 & H3 & H4) Hc; simpl in *; repeat split; lia.
Qed.

Lemma rightRect_contains (axis : nat) (rect : Rect) (pivot a : Point) :
  (axis = 0 \/ axis = 1)%nat ->
  rectContainsPoint rect a -> coord axis pivot <= coord axis a ->
  rectContainsPoint (rightChildBoundingRect axis rect pivot) a.
Proof.
  unfold rectContainsPoint, rightChildBoundingRect, coord.
  intros [-> | ->] (H1 & H2 & H3 & H4) Hc; simpl in *; repeat split; lia.
Qed.

(** The pivot splits the sorted array: what is before it is not larger on
    the axis, what is after it is not smaller. *)
Lemma median_split (axis : nat) (points : list Point) (d : Point) :
  points <> [] ->
  let sorted := Array_sort (compareOnAxis axis) points in
  let m := medianIndexOf sorted in
  let pivot := nth m sorted d in
  sorted = slice 0 m sorted ++ pivot :: slice_from (m + 1) sorted /\
  Forall (fun a => coord axis a <= coord axis pivot) (slice 0 m sorted) /\
  Forall (fun a => coord axis pivot <= coord axis a) (slice_from (m + 1) sorted).
Proof.
  intros Hne sorted m pivot.
  assert (Hm : (m < length sorted)%nat).
  { apply medianIndex_lt. intros E.
    apply (f_equal (@length Point)) in E. unfold sorted in E.
    rewrite Array_sort_length in E. destruct points; [congruence | discriminate]. }
  pose proof (nth_split_slices sorted m d Hm) as Hsplit. fold pivot in Hsplit.
  pose proof (Array_sort_sorted (coord axis) (compareOnAxis axis)
                (compareOnAxis_key axis) points) as Hs.
  fold sorted in Hs. rewrite Hsplit in Hs.
  apply StronglySorted_app_iff in Hs. destruct Hs as (_ & Hs2 & Hc).
  split; [exact Hsplit|]. split.
  - rewrite Forall_forall. intros a Ha. apply Hc; [exact Ha | now left].
  - inversion Hs2; subst. assumption.
Qed.

Lemma createKDTree_invariants (n : nat) :
  forall points depth rect,
    (length points <= n)%nat ->
    Forall (rectContainsPoint rect) points ->
    let t := fst (createKDTree_ points depth rect) in
    wellFormed depth t /\
    Permutation points (pointsOf t) /\
    (points <> [] -> rectOf t = Some rect /\ t <> null) /\
    (points = [] -> t = null).
Proof.
  induction n as [|n IH]; intros points depth rect Hlen Hin.
  - destruct points; [|simpl in Hlen; lia].
    rewrite createKDTree__equation_1. simpl.
    repeat split; try constructor; congruence.
  - destruct points as [|p0 ps].
    { rewrite createKDTree__equation_1. simpl.
      repeat split; try constructor; congruence. }
    rewrite createKDTree__equation_2. cbv zeta. cbn [fst].
    destruct (median_split (depth mod K) (p0 :: ps) p0 ltac:(discriminate))
      as (Hsplit & Hbefore & Hafter).
    set (sorted := Array_sort (compareOnAxis (depth mod K)) (p0 :: ps)) in *.
    set (m := medianIndexOf sorted) in *.
    set (pivot := nth m sorted p0) in *.
    set (before := slice 0 m sorted) in *.
    set (after := slice_from (m + 1) sorted) in *.
    assert (Hperm : Permutation (p0 :: ps) sorted) by apply Array_sort_perm.
    assert (Hsin : Forall (rectContainsPoint rect) sorted)
      by (eapply Permutation_Forall; eassumption).
    assert (Hslen : length sorted = S (length ps))
      by (unfold sorted; rewrite Array_sort_length; reflexivity).
    rewrite Hsplit in Hsin. apply Forall_app in Hsin. destruct Hsin as [HinB HinPA].
    inversion HinPA as [|? ? HinP HinA]; subst.
    assert (HlenB : (length before <= n)%nat).
    { apply (f_equal (@length Point)) in Hsplit.
      rewrite length_app in Hsplit. simpl in Hsplit, Hlen. lia. }
    assert (HlenA : (length after <= n)%nat).
    { apply (f_equal (@length Point)) in Hsplit.
      rewrite length_app in Hsplit. simpl in Hsplit, Hlen. lia. }
    assert (HBrect : Forall (rectContainsPoint
                      (leftChildBoundingRect (depth mod K) rect pivot)) before).
    { rewrite Forall_forall in *. intros a Ha.
      apply leftRect_contains; [apply axis_cases | auto | auto]. }
    assert (HArect : Forall (rectContainsPoint
                      (rightChildBoundingRect (depth mod K) rect pivot)) after).
    { rewrite Forall_forall in *. intros a Ha.
      apply rightRect_contains; [apply axis_cases | auto | auto]. }
    destruct (IH before (depth + 1)%nat _ HlenB HBrect) as (WL & PL & NL & EL).
    destruct (IH after (depth + 1)%nat _ HlenA HArect) as (WR & PR & NR & ER).
    split; [| split; [| split]].
    + cbn [wellFormed]. rewrite <- (Nat.add_1_r depth).
      refine (conj HinP (conj _ (conj _ (conj _ (conj _ (conj WL WR)))))).
      * eapply Permutation_Forall; eassumption.
      * eapply Permutation_Forall; eassumption.
      * intros Hnn. apply NL. intros E. apply Hnn, EL, E.
      * intros Hnn. apply NR. intros E. apply Hnn, ER, E.
    + cbn [pointsOf]. rewrite Hperm, Hsplit.
      rewrite <- PL, <- PR. symmetry. apply Permutation_middle.
    + intros _. split; [reflexivity | discriminate].
    + discriminate.
Qed.

Lemma extendBoundingRect_grows (points : list Point) (r : Rect) :
  let r' := fold_left extendBoundingRect points r in
  rectContainsRect r' r /\ Forall (rectContainsPoint r') points.
Proof.
  revert r. induction points as [|p ps IH]; intros r; simpl.
  - unfold rectContainsRect. repeat split; try lia. constructor.
  - destruct (IH (extendBoundingRect r p)) as [Hc Hf].
    unfold rectContainsRect, rectContainsPoint, extendBoundingRect in *.
    simpl in *. split; [repeat split; lia|].
    constructor; [repeat split; lia | exact Hf].
Qed.

Lemma computeBoundingRect_contains (points : list Point) :
  Forall (rectContainsPoint (computeBoundingRect points)) points.
Proof. apply extendBoundingRect_grows. Qed.

Lemma new_KDTree_wellFormed (points : list Point) :
  let t := rootNode (fst (new_KDTree points)) in
  wellFormed 0 t /\ Permutation points (pointsOf t) /\ (points <> [] -> t <> null).
Proof.
  unfold new_KDTree. simpl.
  destruct (createKDTree_invariants (length points) points 0%nat
              (computeBoundingRect points) (le_n _)
              (computeBoundingRect_contains points)) as (W & P & N & _).
  repeat split; try assumption. intros H. now apply N.
Qed.

Lemma wellFormed_rectsNested (t : KDTreeNode) :
  forall depth, wellFormed depth t -> rectsNested depth t.
Proof.
  induction t as [|p rect l IHl r IHr]; intros depth;
    cbn [wellFormed rectsNested]; [trivial|].
  intros (Hp & _ & _ & Hl & Hr & Wl & Wr).
  rewrite leftRect_is_clipMax in Hl. rewrite rightRect_is_clipMin in Hr.
  remember (depth mod 2)%nat as axis eqn:Eaxis. clear Eaxis.
  repeat split; auto.
  - destruct l as [|lp lrect ll lr]; cbn [childRectOk]; [trivial|].
    specialize (Hl ltac:(discriminate)). cbn [rectOf] in Hl. injection Hl as ->.
    split; [reflexivity|]. clear - Hp.
    unfold rectContainsRect, rectContainsPoint, clipMax, coord, AXIS_X in *.
    destruct Hp as (? & ? & ? & ?).
    destruct axis; cbn; lia.
  - destruct r as [|rp rrect rl rr]; cbn [childRectOk]; [trivial|].
    specialize (Hr ltac:(discriminate)). cbn [rectOf] in Hr. injection Hr as ->.
    split; [reflexivity|]. clear - Hp.
    unfold rectContainsRect, rectContainsPoint, clipMin, coord, AXIS_X in *.
    destruct Hp as (? & ? & ? & ?).
    destruct axis; cbn; lia.
Qed.

(** ** The bounded, sorted result list *)

Lemma lastEntry_snoc (l : list SearchResult) (a : SearchResult) :
  lastEntry (l ++ [a]) = Some a.
Proof.
  unfold lastEntry. rewrite length_app. simpl.
  replace (length l + 1 - 1)%nat with (length l) by lia.
  rewrite nth_error_app2 by lia. now rewrite Nat.sub_diag.
Qed.

Lemma lastEntry_nonempty (l : list SearchResult) :
  l <> [] -> exists init w, l = init ++ [w] /\ lastEntry l = Some w.
Proof.
  intros H. destruct (exists_last H) as (init & w & ->).
  exists init, w. split; [reflexivity | apply lastEntry_snoc].
Qed.

Lemma scanInsertIndex_le (rs : list SearchResult) (d : Z) (i : nat) :
  (scanInsertIndex rs d i <= i)%nat.
Proof.
  induction i as [|j IH]; simpl; [lia|].
  destruct (nth_error rs j) as [r|]; [destruct (d >? distance r)|]; lia.
Qed.

Lemma scanInsertIndex_app (l l' : list SearchResult) (d : Z) (i : nat) :
  (i <= length l)%nat -> scanInsertIndex (l ++ l') d i = scanInsertIndex l d i.
Proof.
  induction i as [|j IH]; intros Hi; simpl; [reflexivity|].
  rewrite nth_error_app1 by lia. rewrite IH by lia. reflexivity.
Qed.

Lemma placed_snoc (l : list SearchResult) (a e : SearchResult) :
  placed (l ++ [a]) e =
  if distance e >? distance a then l ++ [a; e] else placed l e ++ [a].
Proof.
  unfold placed, splice_insert. rewrite length_app. simpl length.
  rewrite Nat.add_1_r. cbn [scanInsertIndex].
  rewrite nth_error_app2 by lia. rewrite Nat.sub_diag. cbn [nth_error].
  destruct (distance e >? distance a).
  - rewrite firstn_all2 by (rewrite length_app; simpl; lia).
    rewrite skipn_all2 by (rewrite length_app; simpl; lia).
    rewrite <- app_assoc. reflexivity.
  - rewrite scanInsertIndex_app by lia.
    pose proof (scanInsertIndex_le l (distance e) (length l)) as Hle.
    set (j := scanInsertIndex l (distance e) (length l)) in *.
    rewrite firstn_app, skipn_app.
    replace (j - length l)%nat with 0%nat by lia. simpl.
    rewrite app_nil_r, <- app_assoc. reflexivity.
Qed.

Lemma placed_split (rs : list SearchResult) (e : SearchResult) :
  exists pre post,
    rs = pre ++ post /\
    placed rs e = pre ++ e :: post /\
    (pre = [] \/ exists pre' a, pre = pre' ++ [a] /\ distance a < distance e) /\
    Forall (fun b => distance e <= distance b) post.
Proof.
  induction rs as [|a l IH] using rev_ind.
  - exists [], []. repeat split; [now left | constructor].
  - rewrite placed_snoc. destruct (Z.gtb_spec (distance e) (distance a)) as [Hgt | Hle].
    + exists (l ++ [a]), []. rewrite app_nil_r, <- app_assoc.
      repeat split; [| constructor]. right. exists l, a. split; [reflexivity | lia].
    + destruct IH as (pre & post & Hrs & Hpl & Hpre & Hpost).
      exists pre, (post ++ [a]). rewrite Hpl, Hrs, <- !app_assoc.
      repeat split; [exact Hpre |].
      apply Forall_app. split; [exact Hpost | repeat constructor; lia].
Qed.

Lemma placed_length (rs : list SearchResult) (e : SearchResult) :
  length (placed rs e) = S (length rs).
Proof.
  destruct (placed_split rs e) as (pre & post & Hrs & Hpl & _).
  rewrite Hpl, Hrs, !length_app. simpl. lia.
Qed.

Lemma placed_perm (rs : list SearchResult) (e : SearchResult) :
  Permutation (e :: rs) (placed rs e).
Proof.
  destruct (placed_split rs e) as (pre & post & Hrs & Hpl & _).
  rewrite Hpl, Hrs. apply Permutation_middle.
Qed.

Lemma placed_sorted (rs : list SearchResult) (e : SearchResult) :
  sortedByDistance rs -> sortedByDistance (placed rs e).
Proof.
  unfold sortedByDistance. intros Hs.
  destruct (placed_split rs e) as (pre & post & Hrs & Hpl & Hpre & Hpost).
  rewrite Hpl. rewrite Hrs in Hs.
  apply StronglySorted_app_iff in Hs. destruct Hs as (Hs1 & Hs2 & Hc).
  apply StronglySorted_app_iff. split; [exact Hs1|]. split.
  - constructor; assumption.
  - assert (Hlt : forall a, In a pre -> distance a < distance e).
    { destruct Hpre as [-> | (pre' & w & -> & Hw)]; [intros ? []|].
      intros a Ha. apply StronglySorted_app_iff in Hs1.
      destruct Hs1 as (_ & _ & Hc1). apply in_app_or in Ha.
      destruct Ha as [Ha | [<- | []]]; [|lia].
      specialize (Hc1 a w Ha (or_introl eq_refl)). simpl in Hc1. lia. }
    intros a b Ha [<- | Hb].
    + specialize (Hlt a Ha). lia.
    + now apply Hc.
Qed.

Lemma insertResult_unfold (rs : list SearchResult) (e : SearchResult) (k : Z) :
  insertResult_ rs e k =
  if Z.of_nat (S (length rs)) >? k then removelast (placed rs e) else placed rs e.
Proof.
  unfold insertResult_. fold (placed rs e). cbv zeta.
  rewrite placed_length. reflexivity.
Qed.

Lemma insertResult_room (rs : list SearchResult) (e : SearchResult) (k : Z) :
  Z.of_nat (length rs) < k -> insertResult_ rs e k = placed rs e.
Proof.
  intros H. rewrite insertResult_unfold.
  destruct (Z.gtb_spec (Z.of_nat (S (length rs))) k); [lia | reflexivity].
Qed.

Lemma insertResult_full (rs : list SearchResult) (e : SearchResult) (k : Z) :
  k <= Z.of_nat (length rs) ->
  exists w, placed rs e = insertResult_ rs e k ++ [w].
Proof.
  intros H. rewrite insertResult_unfold.
  destruct (Z.gtb_spec (Z.of_nat (S (length rs))) k); [|lia].
  assert (Hne : placed rs e <> []).
  { intros E. apply (f_equal (@length _)) in E. rewrite placed_length in E.
    discriminate. }
  destruct (exists_last Hne) as (init & w & Hw).
  exists w. rewrite Hw at 2. rewrite removelast_last. exact Hw.
Qed.

Lemma insertResult_sorted (rs : list SearchResult) (e : SearchResult) (k : Z) :
  sortedByDistance rs -> sortedByDistance (insertResult_ rs e k).
Proof.
  intros Hs. apply (placed_sorted rs e) in Hs.
  destruct (Z.lt_ge_cases (Z.of_nat (length rs)) k) as [Hlt | Hge].
  - now rewrite insertResult_room.
  - destruct (insertResult_full rs e k Hge) as (w & Hw).
    rewrite Hw in Hs. apply StronglySorted_app_iff in Hs. tauto.
Qed.

Lemma insertResult_length (rs : list SearchResult) (e : SearchResult) (k : Z) :
  Z.of_nat (length rs) <= k -> Z.of_nat (length (insertResult_ rs e k)) <= k.
Proof.
  intros Hk. destruct (Z.lt_ge_cases (Z.of_nat (length rs)) k) as [Hlt | Hge].
  - rewrite insertResult_room, placed_length by assumption. lia.
  - destruct (insertResult_full rs e k Hge) as (w & Hw).
    apply (f_equal (@length _)) in Hw.
    rewrite placed_length, length_app in Hw. simpl in Hw. lia.
Qed.

(** ** Geometry of the pruning test *)

Lemma clamp_code (lo hi v : Z) :
  lo <= hi ->
  (if v <? lo then lo else if v >? hi then hi else v) = clamp lo hi v.
Proof.
  intros H. unfold clamp.
  destruct (Z.ltb_spec v lo); [lia|]. destruct (Z.gtb_spec v hi); lia.
Qed.

Lemma clamp_at_lo (lo hi v : Z) : v <= lo -> lo <= hi -> clamp lo hi v = lo.
Proof. unfold clamp. lia. Qed.

Lemma clamp_at_hi (lo hi v : Z) : hi <= v -> lo <= hi -> clamp lo hi v = hi.
Proof. unfold clamp. lia. Qed.

Lemma clamp_nearest (lo hi v u : Z) :
  lo <= u -> u <= hi ->
  (v - clamp lo hi v) * (v - clamp lo hi v) <= (v - u) * (v - u).
Proof.
  intros H1 H2.
  assert (Hc : clamp lo hi v = v \/ (clamp lo hi v = lo /\ v <= lo)
               \/ (clamp lo hi v = hi /\ hi <= v)) by (unfold clamp; lia).
  destruct Hc as [-> | [[-> Hv] | [-> Hv]]].
  - rewrite Z.sub_diag. apply Z.square_nonneg.
  - replace ((v - lo) * (v - lo)) with ((lo - v) * (lo - v)) by ring.
    replace ((v - u) * (v - u)) with ((u - v) * (u - v)) by ring.
    apply Z.mul_le_mono_nonneg; lia.
  - apply Z.mul_le_mono_nonneg; lia.
Qed.

Lemma rectMinSquaredDist_bound (q pt : Point) (r : Rect) :
  rectContainsPoint r pt -> rectMinSquaredDist q r <= sqDist q pt.
Proof.
  intros (H1 & H2 & H3 & H4).
  unfold rectMinSquaredDist, sqDist, getSquaredEuclidianDistance. simpl.
  pose proof (clamp_nearest (minX r) (maxX r) (x q) (x pt) H1 H2).
  pose proof (clamp_nearest (minY r) (maxY r) (y q) (y pt) H3 H4).
  lia.
Qed.


(** In a well-formed tree the distance of line 184 is the distance from
    the query to the far child's rectangle. *)
Lemma opposite_right_is_clamp (axis : nat) (rect : Rect) (p q : Point) :
  (axis = 0 \/ axis = 1)%nat ->
  rectContainsPoint rect p ->
  coord axis q < coord axis p ->
  let orect := rightChildBoundingRect axis rect p in
  oppositeSquaredDist axis p q orect = rectMinSquaredDist q orect /\
  rectContainsPoint orect p.
Proof.
  intros Hax (H1 & H2 & H3 & H4) Hq orect.
  unfold oppositeSquaredDist, rectMinSquaredDist, sqDist, rectContainsPoint.
  subst orect. unfold rightChildBoundingRect, coord, AXIS_X, AXIS_Y in *.
  destruct Hax as [-> | ->]; simpl in *.
  - rewrite clamp_code by lia. rewrite (clamp_at_lo (x p)) by lia.
    split; [reflexivity | lia].
  - rewrite clamp_code by lia. rewrite (clamp_at_lo (y p)) by lia.
    split; [reflexivity | lia].
Qed.

Lemma opposite_left_is_clamp (axis : nat) (rect : Rect) (p q : Point) :
  (axis = 0 \/ axis = 1)%nat ->
  rectContainsPoint rect p ->
  coord axis p <= coord axis q ->
  let orect := leftChildBoundingRect axis rect p in
  oppositeSquaredDist axis p q orect = rectMinSquaredDist q orect /\
  rectContainsPoint orect p.
Proof.
  intros Hax (H1 & H2 & H3 & H4) Hq orect.
  unfold oppositeSquaredDist, rectMinSquaredDist, sqDist, rectContainsPoint.
  subst orect. unfold leftChildBoundingRect, coord, AXIS_X, AXIS_Y in *.
  destruct Hax as [-> | ->]; simpl in *.
  - rewrite clamp_code by lia. rewrite (clamp_at_hi _ (x p)) by lia.
    split; [reflexivity | lia].
  - rewrite clamp_code by lia. rewrite (clamp_at_hi _ (y p)) by lia.
    split; [reflexivity | lia].
Qed.

(** ** The result list as the best of what was seen *)

Lemma bestOf_nil (k : Z) : 0 <= k -> bestOf k [] [].
Proof.
  intros Hk. split; [constructor|]. split; [simpl; lia|].
  exists []. split; [constructor|]. split; [congruence | intros ? ? []].
Qed.

Lemma bestOf_perm (k : Z) (seen seen' rs : list SearchResult) :
  Permutation seen seen' -> bestOf k seen rs -> bestOf k seen' rs.
Proof.
  intros HP (Hs & Hl & rest & HPr & Hf & Ho).
  split; [exact Hs|]. split; [exact Hl|].
  exists rest. split; [|split; assumption].
  now rewrite <- HP.
Qed.

Lemma bestOf_insert (k : Z) (seen rs : list SearchResult) (e : SearchResult) :
  bestOf k seen rs -> bestOf k (e :: seen) (insertResult_ rs e k).
Proof.
  intros (Hs & Hl & rest & HP & Hf & Ho).
  split; [now apply insertResult_sorted|].
  split; [now apply insertResult_length|].
  destruct (Z.lt_ge_cases (Z.of_nat (length rs)) k) as [Hlt | Hge].
  - assert (rest = []) as -> by (destruct rest; [reflexivity | lia || (specialize (Hf ltac:(discriminate)); lia)]).
    exists []. rewrite insertResult_room by assumption.
    rewrite app_nil_r in *. split; [|split; [congruence | intros ? ? ? []]].
    rewrite <- placed_perm. now constructor.
  - destruct (insertResult_full rs e k Hge) as (w & Hw).
    pose proof (placed_sorted rs e Hs) as Hps.
    pose proof (placed_perm rs e) as Hpp.
    pose proof (placed_length rs e) as Hpl.
    set (rs' := insertResult_ rs e k) in *. rewrite Hw in Hps, Hpp, Hpl.
    apply StronglySorted_app_iff in Hps. destruct Hps as (_ & _ & Hlast).
    exists (w :: rest). split; [|split].
    + rewrite HP.
      change (e :: rs ++ rest) with ((e :: rs) ++ rest).
      rewrite Hpp, <- app_assoc. reflexivity.
    + intros _. rewrite length_app in Hpl. simpl in Hpl. lia.
    + intros a e' Ha [<- | He'].
      * apply (Hlast a w Ha). now left.
      * assert (Hw_in : In w (e :: rs)).
        { eapply Permutation_in; [symmetry; exact Hpp|].
          apply in_or_app. right. now left. }
        destruct Hw_in as [<- | Hw_in].
        -- assert (Hrs : Permutation rs rs').
           { apply Permutation_cons_inv with (a := e).
             rewrite Hpp. symmetry. apply Permutation_cons_append. }
           apply Ho; [|exact He'].
           eapply Permutation_in; [symmetry; exact Hrs | exact Ha].
        -- specialize (Hlast a w Ha (or_introl eq_refl)). simpl in Hlast.
           specialize (Ho w e' Hw_in He'). lia.
Qed.

Lemma bestOf_skip (k : Z) (seen rs skipped : list SearchResult) :
  bestOf k seen rs ->
  Z.of_nat (length rs) = k ->
  (forall a t, In a rs -> In t skipped -> distance a <= distance t) ->
  bestOf k (seen ++ skipped) rs.
Proof.
  intros (Hs & Hl & rest & HP & Hf & Ho) Hfull Hsk.
  split; [exact Hs|]. split; [exact Hl|].
  exists (rest ++ skipped). split; [|split].
  - rewrite HP, app_assoc. reflexivity.
  - intros _. exact Hfull.
  - intros a t Ha Ht. apply in_app_or in Ht. destruct Ht; auto.
Qed.

Lemma bestOf_notfull_in (k : Z) (seen rs : list SearchResult) (e : SearchResult) :
  bestOf k seen rs -> Z.of_nat (length rs) < k -> In e seen -> In e rs.
Proof.
  intros (Hs & Hl & rest & HP & Hf & Ho) Hlt He.
  destruct rest as [|r rest].
  - rewrite app_nil_r in HP. eapply Permutation_in; eassumption.
  - specialize (Hf ltac:(discriminate)). lia.
Qed.

Lemma bestOf_nonempty (k : Z) (seen rs : list SearchResult) (e : SearchResult) :
  1 <= k -> bestOf k seen rs -> In e seen -> rs <> [].
Proof.
  intros Hk HB He ->.
  apply (bestOf_notfull_in k seen [] e HB); simpl; [lia | exact He].
Qed.

Lemma sorted_worst (init : list SearchResult) (w a : SearchResult) :
  sortedByDistance (init ++ [w]) -> In a (init ++ [w]) -> distance a <= distance w.
Proof.
  intros Hs Ha. apply StronglySorted_app_iff in Hs. destruct Hs as (_ & _ & Hc).
  apply in_app_or in Ha. destruct Ha as [Ha | [<- | []]]; [|lia].
  apply (Hc a w Ha). now left.
Qed.

(** ** The search *)

Lemma entriesOf_points (q : Point) (t : KDTreeNode) :
  map entryPoint (entriesOf q t) = pointsOf t.
Proof.
  induction t as [|p rect l IHl r IHr]; simpl; [reflexivity|].
  rewrite map_app, IHl, IHr. reflexivity.
Qed.

Lemma entriesOf_facts (q : Point) (t : KDTreeNode) :
  Forall (fun e => distance e = sqDist q (entryPoint e) /\
                   pointOf (node e) = Some (entryPoint e))
         (entriesOf q t).
Proof.
  induction t as [|p rect l IHl r IHr]; simpl; [constructor|].
  constructor; [split; reflexivity|]. apply Forall_app. now split.
Qed.

Lemma entriesOf_in (q : Point) (t : KDTreeNode) (e : SearchResult) :
  In e (entriesOf q t) ->
  In (entryPoint e) (pointsOf t) /\ distance e = sqDist q (entryPoint e).
Proof.
  intros He. split.
  - rewrite <- (entriesOf_points q t). now apply in_map.
  - pose proof (entriesOf_facts q t) as HF. rewrite Forall_forall in HF.
    now apply HF.
Qed.

Lemma search_node_unfold (p : Point) (rect : Rect) (l r : KDTreeNode)
  (q : Point) (depth : nat) (rs : list SearchResult) (k : Z) (c : option (list Point)) :
  getNearestNeighbours_ (Node p rect l r) q depth rs k c =
  (let axis := (depth mod K)%nat in
   let e := {| node := Node p rect l r; distance := sqDist q p |} in
   let rs1 := insertResult_ rs e k in
   let c1 := pushConsidered c p in
   let target := if coord axis q <? coord axis p then l else r in
   let opposite := if coord axis q <? coord axis p then r else l in
   st2 <- match target with
          | null => Ok (rs1, c1)
          | Node _ _ _ _ => getNearestNeighbours_ target q (depth + 1) rs1 k c1
          end ;;
   match opposite with
   | null => Ok st2
   | Node _ orect _ _ =>
       match lastEntry (fst st2) with
       | None => Throw TypeError
       | Some w =>
           if oppositeSquaredDist axis p q orect <=? distance w
           then getNearestNeighbours_ opposite q (depth + 1) (fst st2) k (snd st2)
           else Ok st2
       end
   end).
Proof. reflexivity. Qed.

Lemma spec_node_unfold (p : Point) (rect : Rect) (l r : KDTreeNode)
  (q : Point) (depth : nat) (rs : list SearchResult) (k : Z) (c : option (list Point)) :
  searchWithSpecPruning (Node p rect l r) q depth rs k c =
  (let axis := (depth mod K)%nat in
   let e := {| node := Node p rect l r; distance := sqDist q p |} in
   let rs1 := insertResult_ rs e k in
   let c1 := pushConsidered c p in
   let target := if coord axis q <? coord axis p then l else r in
   let opposite := if coord axis q <? coord axis p then r else l in
   let st2 := match target with
              | null => (rs1, c1)
              | Node _ _ _ _ => searchWithSpecPruning target q (depth + 1) rs1 k c1
              end in
   match opposite with
   | null => st2
   | Node _ orect _ _ =>
       if farChildWorthSearching q orect (fst st2) k
       then searchWithSpecPruning opposite q (depth + 1) (fst st2) k (snd st2)
       else st2
   end).
Proof. reflexivity. Qed.

(** What a well-formed node gives for its near and far children. *)
Lemma children_facts (depth : nat) (p : Point) (rect : Rect) (l r : KDTreeNode)
  (q : Point) :
  wellFormed depth (Node p rect l r) ->
  let axis := (depth mod K)%nat in
  let target := if coord axis q <? coord axis p then l else r in
  let opposite := if coord axis q <? coord axis p then r else l in
  wellFormed (depth + 1) target /\ wellFormed (depth + 1) opposite /\
  Permutation (entriesOf q l ++ entriesOf q r)
              (entriesOf q target ++ entriesOf q opposite) /\
  (forall op orect ol or, opposite = Node op orect ol or ->
     oppositeSquaredDist axis p q orect = rectMinSquaredDist q orect /\
     rectContainsPoint orect p /\
     Forall (rectContainsPoint orect) (pointsOf opposite)).
Proof.
  intros Hwf axis target opposite. subst target opposite.
  cbn [wellFormed] in Hwf. destruct Hwf as (Hp & Fl & Fr & Rl & Rr & Wl & Wr).
  rewrite Nat.add_1_r. fold axis in Fl, Fr, Rl, Rr.
  pose proof (axis_cases depth) as Hax. fold axis in Hax.
  destruct (Z.ltb_spec (coord axis q) (coord axis p)) as [Hlt | Hge]; cbv zeta.
  - split; [exact Wl|]. split; [exact Wr|]. split; [reflexivity|].
    intros op orect ol or E. subst r.
    specialize (Rr ltac:(discriminate)). cbn [rectOf] in Rr.
    injection Rr as ->.
    destruct (opposite_right_is_clamp axis rect p q Hax Hp Hlt) as [H1 H2].
    auto.
  - split; [exact Wr|]. split; [exact Wl|]. split; [apply Permutation_app_comm|].
    intros op orect ol or E. subst l.
    specialize (Rl ltac:(discriminate)). cbn [rectOf] in Rl.
    injection Rl as ->.
    destruct (opposite_left_is_clamp axis rect p q Hax Hp Hge) as [H1 H2].
    auto.
Qed.

Lemma search_ok (q : Point) (t : KDTreeNode) : searchOk q t.
Proof.
  induction t as [|p rect l IHl r IHr];
    intros depth k seen rs c Hk Hwf Hnn HB; [congruence|].
  rewrite search_node_unfold, spec_node_unfold. cbv zeta.
  destruct (children_facts depth p rect l r q Hwf) as (Wt & Wo & HPe & Hopp).
  set (axis := (depth mod K)%nat) in *.
  assert (IHt : searchOk q (if coord axis q <? coord axis p then l else r))
    by (destruct (coord axis q <? coord axis p); assumption).
  assert (IHo : searchOk q (if coord axis q <? coord axis p then r else l))
    by (destruct (coord axis q <? coord axis p); assumption).
  set (target := if coord axis q <? coord axis p then l else r) in *.
  set (opposite := if coord axis q <? coord axis p then r else l) in *.
  clearbody target opposite. clear IHl IHr Hwf.
  set (e := {| node := Node p rect l r; distance := sqDist q p |}).
  set (rs1 := insertResult_ rs e k). set (c1 := pushConsidered c p).
  assert (B1 : bestOf k (e :: seen) rs1) by now apply bestOf_insert.
  assert (HPall : Permutation (((e :: seen) ++ entriesOf q target)
                                 ++ entriesOf q opposite)
                              (seen ++ entriesOf q (Node p rect l r))).
  { cbn [entriesOf]. fold e. rewrite <- app_assoc, <- HPe. simpl.
    apply Permutation_middle. }
  assert (Hnear : exists st2,
    match target with
    | null => Ok (rs1, c1)
    | Node _ _ _ _ => getNearestNeighbours_ target q (depth + 1) rs1 k c1
    end = Ok st2 /\
    match target with
    | null => (rs1, c1)
    | Node _ _ _ _ => searchWithSpecPruning target q (depth + 1) rs1 k c1
    end = st2 /\
    bestOf k ((e :: seen) ++ entriesOf q target) (fst st2)).
  { destruct target as [|tp trect tl tr].
    - exists (rs1, c1). simpl entriesOf. rewrite app_nil_r. auto.
    - destruct (IHt (depth + 1)%nat k (e :: seen) rs1 c1 Hk Wt
                  ltac:(discriminate) B1) as [E B].
      eexists. split; [exact E|]. split; [reflexivity | exact B]. }
  destruct Hnear as (st2 & E1 & E2 & B2). rewrite E1, E2. cbn [bind].
  clear E1 E2 IHt.
  destruct opposite as [|op orect ol or].
  - split; [reflexivity|].
    eapply bestOf_perm; [|exact B2]. rewrite <- HPall.
    simpl entriesOf. now rewrite app_nil_r.
  - destruct (Hopp _ _ _ _ eq_refl) as (Hclamp & Hp_in & Hpts).
    set (far := Node op orect ol or) in *.
    assert (Hne : fst st2 <> []).
    { apply (bestOf_nonempty k _ _ e Hk B2). now left. }
    destruct (lastEntry_nonempty _ Hne) as (init & w & Hrs2 & Hlast).
    unfold farChildWorthSearching. rewrite Hlast, <- Hclamp.
    set (sq := oppositeSquaredDist axis p q orect) in *.
    assert (Hsq_p : sq <= sqDist q p).
    { rewrite Hclamp. now apply rectMinSquaredDist_bound. }
    assert (Hworst : forall a, In a (fst st2) -> distance a <= distance w).
    { intros a Ha. destruct B2 as (Hs & _). rewrite Hrs2 in Hs, Ha.
      now apply (sorted_worst init w a). }
    assert (Hroom : Z.of_nat (length (fst st2)) < k -> sq <= distance w).
    { intros Hlt.
      assert (He : In e (fst st2))
        by (apply (bestOf_notfull_in k _ _ e B2 Hlt); now left).
      apply Hworst in He. simpl in He. lia. }
    assert (Hgo : getNearestNeighbours_ far q (depth + 1) (fst st2) k (snd st2)
                  = Ok (searchWithSpecPruning far q (depth + 1) (fst st2) k (snd st2)) /\
                  bestOf k (seen ++ entriesOf q (Node p rect l r))
                    (fst (searchWithSpecPruning far q (depth + 1) (fst st2) k (snd st2)))).
    { destruct (IHo (depth + 1)%nat k _ (fst st2) (snd st2) Hk Wo
                  ltac:(discriminate) B2) as [E B].
      split; [exact E|]. eapply bestOf_perm; [exact HPall | exact B]. }
    destruct (Z.ltb_spec (Z.of_nat (length (fst st2))) k) as [Hlt | Hge];
      cbn [orb].
    + specialize (Hroom Hlt). apply Z.leb_le in Hroom. rewrite Hroom. exact Hgo.
    + destruct (Z.leb_spec sq (distance w)) as [Hle | Hgt]; [exact Hgo|].
      split; [reflexivity|].
      eapply bestOf_perm; [exact HPall|].
      apply bestOf_skip; [exact B2 | destruct B2 as (_ & ? & _); lia |].
      intros a t Ha Ht. specialize (Hworst a Ha).
      apply entriesOf_in in Ht. destruct Ht as [Hin Hd].
      rewrite Forall_forall in Hpts. specialize (Hpts _ Hin).
      pose proof (rectMinSquaredDist_bound q _ orect Hpts) as Hb.
      rewrite <- Hclamp in Hb. fold sq in Hb. lia.
Qed.

(** ** From entries to points *)

Lemma extractPoints_acc (rs : list SearchResult) (acc : list Point) :
  Forall (fun e => pointOf (node e) = Some (entryPoint e)) rs ->
  fold_left
    (fun acc r =>
       points <- acc ;;
       match pointOf (node r) with
       | Some p => Ok (points ++ [p])
       | None => Throw TypeError
       end)
    rs (Ok acc)
  = Ok (acc ++ map entryPoint rs).
Proof.
  revert acc. induction rs as [|e rs IH]; intros acc HF; simpl.
  - now rewrite app_nil_r.
  - inversion HF as [|? ? He Hrs]; subst. rewrite He.
    rewrite IH by assumption. now rewrite <- app_assoc.
Qed.

Lemma extractPoints_ok (rs : list SearchResult) :
  Forall (fun e => pointOf (node e) = Some (entryPoint e)) rs ->
  extractPoints rs = Ok (map entryPoint rs).
Proof. intros HF. unfold extractPoints. now rewrite extractPoints_acc. Qed.

Lemma sorted_entries_points (q : Point) (rs : list SearchResult) :
  sortedByDistance rs ->
  Forall (fun e => distance e = sqDist q (entryPoint e)) rs ->
  sortedByDistanceTo q (map entryPoint rs).
Proof.
  unfold sortedByDistance, sortedByDistanceTo.
  induction rs as [|e rs IH]; intros Hs HF; simpl; [constructor|].
  inversion Hs as [|? ? Hs' Hall]; inversion HF as [|? ? He HF']; subst.
  constructor; [now apply IH|].
  rewrite Forall_map. rewrite Forall_forall in *.
  intros b Hb. rewrite <- He, <- (HF' b Hb). now apply Hall.
Qed.

Lemma bestOf_nearestSelection (points : list Point) (q : Point) (k : Z)
  (t : KDTreeNode) (rs : list SearchResult) :
  Permutation points (pointsOf t) ->
  bestOf k (entriesOf q t) rs ->
  nearestSelection points q k (map entryPoint rs) /\
  Forall (fun e => pointOf (node e) = Some (entryPoint e)) rs.
Proof.
  intros HP (Hs & Hl & rest & HPe & Hfull & Hord).
  pose proof (entriesOf_facts q t) as HF.
  eapply Permutation_Forall in HF; [|exact HPe].
  apply Forall_app in HF. destruct HF as [HFrs HFrest].
  assert (HPp : Permutation points (map entryPoint rs ++ map entryPoint rest)).
  { rewrite HP, <- (entriesOf_points q t), <- map_app. now apply Permutation_map. }
  split; [|eapply Forall_impl; [|exact HFrs]; simpl; tauto].
  split; [|split].
  - rewrite length_map. apply Permutation_length in HPp.
    rewrite length_app, !length_map in HPp.
    destruct rest as [|r rest]; simpl in HPp.
    + lia.
    + specialize (Hfull ltac:(discriminate)). lia.
  - apply sorted_entries_points; [exact Hs|].
    eapply Forall_impl; [|exact HFrs]; simpl; tauto.
  - exists (map entryPoint rest). split; [exact HPp|].
    intros a b Ha Hb. apply in_map_iff in Ha, Hb.
    destruct Ha as (ea & <- & Ha). destruct Hb as (eb & <- & Hb).
    rewrite Forall_forall in HFrs, HFrest.
    destruct (HFrs ea Ha) as [<- _]. destruct (HFrest eb Hb) as [<- _].
    now apply Hord.
Qed.

(** The search on a tree built from a non-empty array. *)
Lemma built_search (points : list Point) (q : Point) (k : Z) (c : option (list Point)) :
  points <> [] -> 1 <= k ->
  let t := rootNode (fst (new_KDTree points)) in
  getNearestNeighbours_ t q 0 [] k c = Ok (searchWithSpecPruning t q 0 [] k c) /\
  nearestSelection points q k
    (map entryPoint (fst (searchWithSpecPruning t q 0 [] k c))) /\
  Forall (fun e => pointOf (node e) = Some (entryPoint e))
    (fst (searchWithSpecPruning t q 0 [] k c)).
Proof.
  intros Hne Hk t.
  destruct (new_KDTree_wellFormed points) as (Hwf & HP & Hnn). fold t in Hwf, HP, Hnn.
  destruct (search_ok q t 0%nat k [] [] c Hk Hwf (Hnn Hne) (bestOf_nil k ltac:(lia)))
    as [E B].
  split; [exact E|]. simpl app in B.
  now apply (bestOf_nearestSelection points q k t).
Qed.

(** ** Selections and the linear scan *)

Lemma StronglySorted_map_key {A : Type} (f : A -> Z) (l : list A) :
  StronglySorted (fun a b => f a <= f b) l -> StronglySorted Z.le (map f l).
Proof.
  induction l as [|a l IH]; intros Hs; simpl; [constructor|].
  inversion Hs; subst. constructor; [now apply IH|].
  rewrite Forall_map. assumption.
Qed.

Lemma map_injective_on {A : Type} (f : A -> Z) (U l1 l2 : list A) :
  (forall a b, In a U -> In b U -> f a = f b -> a = b) ->
  incl l1 U -> incl l2 U -> map f l1 = map f l2 -> l1 = l2.
Proof.
  intros Hinj. revert l2. induction l1 as [|a l1 IH]; intros [|b l2] H1 H2 E;
    simpl in E; try discriminate; [reflexivity|].
  injection E as Eab El. f_equal.
  - apply Hinj; [apply H1 | apply H2 | exact Eab]; now left.
  - apply IH; [| | exact El]; intros z Hz; [apply H1 | apply H2]; now right.
Qed.

Lemma NoDup_map_injective_on {A : Type} (f : A -> Z) (U : list A) :
  NoDup (map f U) -> forall a b, In a U -> In b U -> f a = f b -> a = b.
Proof.
  induction U as [|u U IH]; intros Hnd a b Ha Hb E; [destruct Ha|].
  simpl in Hnd. inversion Hnd as [|? ? Hnotin Hnd']; subst.
  destruct Ha as [<- | Ha], Hb as [<- | Hb]; [reflexivity | | |now apply IH].
  - exfalso. apply Hnotin. rewrite E. now apply in_map.
  - exfalso. apply Hnotin. rewrite <- E. now apply in_map.
Qed.

Lemma distance_cmp_key (q a b : Point) :
  sqDist q a - sqDist q b <= 0 <-> sqDist q a <= sqDist q b.
Proof. lia. Qed.

(** A selection, completed by the sorted remainder, has the distances of
    the fully sorted array. *)
Lemma selection_sorted_all (points : list Point) (q : Point) (k : Z) (pts : list Point) :
  nearestSelection points q k pts ->
  exists rest,
    Permutation points (pts ++ rest) /\
    map (sqDist q) (pts ++ rest)
    = map (sqDist q) (Array_sort (fun a b => sqDist q a - sqDist q b) points).
Proof.
  intros (Hlen & Hs & rest & HP & Hord).
  set (cmp := fun a b => sqDist q a - sqDist q b).
  pose proof (Array_sort_perm cmp rest) as HPr.
  pose proof (Array_sort_sorted (sqDist q) cmp (distance_cmp_key q) rest) as Hsr.
  pose proof (Array_sort_perm cmp points) as HPa.
  pose proof (Array_sort_sorted (sqDist q) cmp (distance_cmp_key q) points) as Hsa.
  exists (Array_sort cmp rest). split; [now rewrite <- HPr|].
  apply sortedList_unique.
  - apply StronglySorted_map_key. apply StronglySorted_app_iff.
    split; [exact Hs|]. split; [exact Hsr|].
    intros a b Ha Hb. apply Hord; [exact Ha|].
    eapply Permutation_in; [symmetry; exact HPr | exact Hb].
  - now apply StronglySorted_map_key.
  - apply Permutation_map. rewrite <- HPa, <- HPr. now symmetry.
Qed.

Lemma selection_agrees (points : list Point) (q : Point) (k : nat) (pts : list Point) :
  (k <= length points)%nat ->
  nearestSelection points q (Z.of_nat k) pts ->
  map (sqDist q) pts = map (sqDist q) (bruteForce points q k) /\
  (NoDup (map (sqDist q) points) -> pts = bruteForce points q k).
Proof.
  intros Hk Hsel.
  assert (Hlen : length pts = k) by (destruct Hsel as (Hl & _); lia).
  destruct (selection_sorted_all points q _ pts Hsel) as (rest & HP & Hmap).
  unfold bruteForce. split.
  - rewrite <- firstn_map, <- Hmap, map_app.
    rewrite firstn_app, length_map, Hlen, Nat.sub_diag. simpl.
    rewrite app_nil_r, firstn_all2 by (rewrite length_map; lia). reflexivity.
  - intros Hnd.
    assert (E : pts ++ rest
                = Array_sort (fun a b => sqDist q a - sqDist q b) points).
    { apply (map_injective_on (sqDist q) points);
        [now apply NoDup_map_injective_on | | | exact Hmap].
      - intros z Hz. eapply Permutation_in; [symmetry; exact HP | exact Hz].
      - intros z Hz. eapply Permutation_in; [|exact Hz].
        symmetry. apply Array_sort_perm. }
    rewrite <- E, firstn_app, Hlen, Nat.sub_diag. simpl.
    rewrite app_nil_r, firstn_all2 by lia. reflexivity.
Qed.

Lemma sort_insert_front {A : Type} (key : A -> Z) (cmp : A -> A -> Z) (e : A)
  (l : list A) :
  (forall a b, cmp a b <= 0 <-> key a <= key b) ->
  Forall (fun b => key e <= key b) l -> sort_insert cmp e l = e :: l.
Proof.
  intros Hcmp HF. destruct l as [|h t]; [reflexivity|]. simpl.
  inversion HF as [|? ? Hh _]; subst.
  apply Hcmp, Z.leb_le in Hh. now rewrite Hh.
Qed.

(** Scanned in the order "selection first", the scan returns the selection. *)
Lemma selection_is_scan (points : list Point) (q : Point) (k : nat)
  (pts : list Point) :
  (k <= length points)%nat ->
  nearestSelection points q (Z.of_nat k) pts ->
  exists order, Permutation points order /\ pts = bruteForce order q k.
Proof.
  intros Hk (Hlen & Hs & rest & HP & Hord).
  set (cmp := fun a b => sqDist q a - sqDist q b).
  exists (pts ++ rest). split; [exact HP|].
  assert (E : Array_sort cmp (pts ++ rest) = pts ++ Array_sort cmp rest).
  { clear Hlen HP. induction pts as [|a l IH]; [reflexivity|].
    inversion Hs as [|? ? Hs' Ha]; subst. simpl.
    rewrite IH; [|exact Hs' | intros; apply Hord; [now right | assumption]].
    apply (sort_insert_front (sqDist q)); [apply distance_cmp_key|].
    apply Forall_app. split; [exact Ha|].
    rewrite Forall_forall. intros b Hb. apply Hord; [now left|].
    eapply Permutation_in; [symmetry; apply Array_sort_perm | exact Hb]. }
  unfold bruteForce. fold cmp. rewrite E, firstn_app.
  replace (k - length pts)%nat with 0%nat by lia.
  rewrite firstn_all2 by lia. simpl. now rewrite app_nil_r.
Qed.


(** The one result of the search for the nearest point. *)
Lemma nearest_found (points : list Point) (q : Point) (c : option (list Point)) :
  points <> [] ->
  exists p' c',
    getNearestNeighbour (fst (new_KDTree points)) q c = Ok (Some p', c') /\
    In p' points /\
    forall p, In p points -> sqDist q p' <= sqDist q p.
Proof.
  intros Hne.
  destruct (built_search points q 1 c Hne ltac:(lia)) as (E & Hsel & Hnodes).
  set (t := rootNode (fst (new_KDTree points))) in *.
  set (st := searchWithSpecPruning t q 0 [] 1 c) in *.
  destruct Hsel as (Hlen & _ & rest & HP & Hord).
  rewrite length_map in Hlen.
  assert (Hlen1 : length (fst st) = 1%nat).
  { destruct points; [congruence | simpl in Hlen; lia]. }
  destruct (fst st) as [|e [|e' rs]] eqn:Est; try discriminate.
  inversion Hnodes as [|? ? He _]; subst.
  exists (entryPoint e), (snd st). split; [|split].
  - unfold getNearestNeighbour. fold t. rewrite E. cbn [bind].
    rewrite Est, He. reflexivity.
  - eapply Permutation_in; [symmetry; exact HP|]. now left.
  - intros p Hp. eapply Permutation_in in Hp; [|exact HP].
    simpl in Hp. destruct Hp as [<- | Hp]; [lia|].
    apply Hord; [now left | exact Hp].
Qed.

(** * The claims *)

(** ** Nearest neighbours (C1, C9, C5) *)

(** C1, as amended.  For every array [points] and query [q] with integer
    coordinates in the exact range and every [k] with [1 <= k <= |points|],
    [getNearestNeighbours] on the tree built from [points] returns [k] of the
    points, sorted ascending by squared distance to [q], no point left out
    being nearer than a returned one.  The distances returned are those of
    the linear scan [bruteForce] over the array; the points returned are the
    scan's when no two points of the array are at the same distance from
    [q], and in any case those of the scan over some enumeration [order] of
    the points. *)
Theorem C1_nearest_in_exact_range (points : list Point) (q : Point) (k : nat)
  (c : option (list Point)) :
  Forall inExactRange points -> inExactRange q ->
  (1 <= k <= length points)%nat ->
  exists pts c',
    getNearestNeighbours (fst (new_KDTree points)) q (Z.of_nat k) c = Ok (pts, c') /\
    length pts = k /\
    sortedByDistanceTo q pts /\
    (exists rest,
        Permutation points (pts ++ rest) /\
        forall a b, In a pts -> In b rest -> sqDist q a <= sqDist q b) /\
    (exists order, Permutation points order /\ pts = bruteForce order q k) /\
    map (sqDist q) pts = map (sqDist q) (bruteForce points q k) /\
    (NoDup (map (sqDist q) points) -> pts = bruteForce points q k).
Proof.
  intros _ _ [Hk1 Hk2].
  assert (Hne : points <> []) by (intros ->; simpl in Hk2; lia).
  destruct (built_search points q (Z.of_nat k) c Hne ltac:(lia)) as (E & Hsel & Hnodes).
  set (t := rootNode (fst (new_KDTree points))) in *.
  set (st := searchWithSpecPruning t q 0 [] (Z.of_nat k) c) in *.
  exists (map entryPoint (fst st)), (snd st).
  split.
  { unfold getNearestNeighbours. fold t. rewrite E. cbn [bind].
    rewrite extractPoints_ok by exact Hnodes. reflexivity. }
  destruct (selection_agrees points q k _ Hk2 Hsel) as [Hd Hp].
  pose proof (selection_is_scan points q k _ Hk2 Hsel) as Hscan.
  destruct Hsel as (Hlen & Hsorted & Hrest).
  split; [lia|]. split; [exact Hsorted|]. split; [exact Hrest|].
  split; [exact Hscan|]. split; assumption.
Qed.

Lemma C1_nearest_in_exact_range_witness :
  exists pts c',
    getNearestNeighbours
      (fst (new_KDTree [mkPoint 0 0; mkPoint 1 1; mkPoint 2 2; mkPoint 5 5; mkPoint 0 5]))
      (mkPoint 1 0) (Z.of_nat 2) None = Ok (pts, c') /\
    length pts = 2%nat /\
    sortedByDistanceTo (mkPoint 1 0) pts /\
    (exists rest,
        Permutation [mkPoint 0 0; mkPoint 1 1; mkPoint 2 2; mkPoint 5 5; mkPoint 0 5]
          (pts ++ rest) /\
        forall a b, In a pts -> In b rest ->
                    sqDist (mkPoint 1 0) a <= sqDist (mkPoint 1 0) b) /\
    (exists order,
        Permutation [mkPoint 0 0; mkPoint 1 1; mkPoint 2 2; mkPoint 5 5; mkPoint 0 5]
          order /\
        pts = bruteForce order (mkPoint 1 0) 2) /\
    map (sqDist (mkPoint 1 0)) pts
    = map (sqDist (mkPoint 1 0))
        (bruteForce [mkPoint 0 0; mkPoint 1 1; mkPoint 2 2; mkPoint 5 5; mkPoint 0 5]
           (mkPoint 1 0) 2) /\
    (NoDup (map (sqDist (mkPoint 1 0))
              [mkPoint 0 0; mkPoint 1 1; mkPoint 2 2; mkPoint 5 5; mkPoint 0 5]) ->
     pts = bruteForce [mkPoint 0 0; mkPoint 1 1; mkPoint 2 2; mkPoint 5 5; mkPoint 0 5]
             (mkPoint 1 0) 2).
Proof.
  apply (C1_nearest_in_exact_range
           [mkPoint 0 0; mkPoint 1 1; mkPoint 2 2; mkPoint 5 5; mkPoint 0 5]
           (mkPoint 1 0) 2 None).
  - repeat constructor; cbv; discriminate.
  - repeat constructor; cbv; discriminate.
  - simpl. lia.
Defined.

(** C1 as stated fails in two ways.

    Rounding: for the array [(2147483640,3); (2147483640,0)], the query
    [(-2147483648,0)] and [k = 2] the source returns the points in this
    order, the squared distances of both rounding to the same double, while
    the second point is the nearer one.

    Equal distances: the arrays [(2,0); (0,0)] and [(0,0); (2,0)] give the
    same tree, and the one point nearest to [(1,0)] is found to be [(0,0)]
    on both, where the linear scan over the first array returns [(2,0)]. *)
Lemma C1_rounding_and_ties_counterexample :
  Binary64.getNearestNeighbours
    (fst (Binary64.new_KDTree
            [Binary64.mkPoint 2147483640 3; Binary64.mkPoint 2147483640 0]))
    (Binary64.mkPoint (-2147483648) 0) 2 None
  = Ok ([Binary64.mkPoint 2147483640 3; Binary64.mkPoint 2147483640 0], None) /\
  sqDist (mkPoint (-2147483648) 0) (mkPoint 2147483640 0)
  < sqDist (mkPoint (-2147483648) 0) (mkPoint 2147483640 3) /\
  getNearestNeighbours (fst (new_KDTree [mkPoint 2 0; mkPoint 0 0])) (mkPoint 1 0) 1 None
  = Ok ([mkPoint 0 0], None) /\
  bruteForce [mkPoint 2 0; mkPoint 0 0] (mkPoint 1 0) 1 = [mkPoint 2 0] /\
  getNearestNeighbours (fst (new_KDTree [mkPoint 0 0; mkPoint 2 0])) (mkPoint 1 0) 1 None
  = Ok ([mkPoint 0 0], None).
Proof. repeat split; reflexivity. Qed.




(** C5.  On a tree built from a non-empty array and for [k >= 1], the
    search of the source is the search that, at each node with a far child,
    recurses into it exactly when the squared distance from the query to the
    far child's rectangle is at most the worst distance held, or fewer than
    [k] entries are held: same results, same points visited in the same
    order. *)
Theorem C5_far_child_pruning (points : list Point) (q : Point) (k : Z)
  (c : option (list Point)) :
  points <> [] -> 1 <= k ->
  getNearestNeighbours_ (rootNode (fst (new_KDTree points))) q 0 [] k c
  = Ok (searchWithSpecPruning (rootNode (fst (new_KDTree points))) q 0 [] k c).
Proof.
  intros Hne Hk. now destruct (built_search points q k c Hne Hk) as (E & _).
Qed.

Lemma C5_far_child_pruning_witness :
  getNearestNeighbours_
    (rootNode (fst (new_KDTree [mkPoint 0 0; mkPoint 1 1; mkPoint 2 2; mkPoint 5 5; mkPoint 0 5])))
    (mkPoint 1 0) 0 [] 2 (Some [])
  = Ok (searchWithSpecPruning
          (rootNode (fst (new_KDTree [mkPoint 0 0; mkPoint 1 1; mkPoint 2 2; mkPoint 5 5; mkPoint 0 5])))
          (mkPoint 1 0) 0 [] 2 (Some [])).
Proof.
  apply (C5_far_child_pruning
           [mkPoint 0 0; mkPoint 1 1; mkPoint 2 2; mkPoint 5 5; mkPoint 0 5]
           (mkPoint 1 0) 2 (Some [])).
  - discriminate.
  - lia.
Defined.

(** ** The empty tree and invalid [k] (C2, C3) *)

(** C2, evaluated on the source: on the tree built from the empty array
    both queries throw a [TypeError] ([currNode.point] with [currNode]
    being [null]), for every query point, every [k] and with or without the
    array of visited points.  The [results.length == 0 ? null : ...] of
    [getNearestNeighbour] is never reached. *)
Theorem C2_empty_tree_throws (q : Point) (k : Z) (c : option (list Point)) :
  rootNode (fst (new_KDTree [])) = null /\
  getNearestNeighbour (fst (new_KDTree [])) q c = Throw TypeError /\
  getNearestNeighbours (fst (new_KDTree [])) q k c = Throw TypeError.
Proof. repeat split; reflexivity. Qed.

Lemma insertResult_no_room (e : SearchResult) (k : Z) :
  k < 1 -> insertResult_ [] e k = [].
Proof.
  intros Hk. unfold insertResult_. simpl.
  destruct (Z.gtb_spec 1 k); [reflexivity | lia].
Qed.

Lemma search_no_room (q : Point) (k : Z) (t : KDTreeNode) :
  k < 1 ->
  forall depth c, t <> null ->
    match getNearestNeighbours_ t q depth [] k c with
    | Ok (rs, _) => rs = [] /\ farChildOnPath t q depth = false
    | Throw _ => farChildOnPath t q depth = true
    end.
Proof.
  intros Hk. induction t as [|p rect l IHl r IHr]; intros depth c Hnn; [congruence|].
  rewrite search_node_unfold. cbv zeta. cbn [farChildOnPath].
  rewrite insertResult_no_room by exact Hk.
  set (axis := (depth mod K)%nat).
  assert (IHt : forall depth c,
             (if coord axis q <? coord axis p then l else r) <> null ->
             match getNearestNeighbours_
                     (if coord axis q <? coord axis p then l else r) q depth [] k c with
             | Ok (rs, _) =>
                 rs = [] /\
                 farChildOnPath (if coord axis q <? coord axis p then l else r) q depth
                 = false
             | Throw _ =>
                 farChildOnPath (if coord axis q <? coord axis p then l else r) q depth
                 = true
             end)
    by (destruct (coord axis q <? coord axis p); assumption).
  set (target := if coord axis q <? coord axis p then l else r) in *.
  set (opposite := if coord axis q <? coord axis p then r else l) in *.
  clearbody target opposite. clear IHl IHr.
  destruct target as [|tp trect tl tr].
  - cbn [bind farChildOnPath orb fst].
    destruct opposite; [split; reflexivity | reflexivity].
  - specialize (IHt (depth + 1)%nat (pushConsidered c p) ltac:(discriminate)).
    set (tgt := Node tp trect tl tr) in *.
    destruct (getNearestNeighbours_ tgt q (depth + 1) [] k (pushConsidered c p))
      as [[rs c']|err]; cbn [bind].
    + destruct IHt as [-> ->]. cbn [orb fst].
      destruct opposite; [split; reflexivity | reflexivity].
    + rewrite IHt. reflexivity.
Qed.

(** C3, as amended.  [maxResults] is never checked and no error is made
    for it.  With [k < 1] nothing stays in the result list: the call never
    returns a non-empty array, and on a tree with a root it returns the
    empty array whenever the search meets no node with a far child on its
    way down. *)
Theorem C3_k_below_one (tree : KDTree) (q : Point) (k : Z) (c : option (list Point)) :
  k < 1 ->
  match getNearestNeighbours tree q k c with
  | Ok (pts, _) => pts = []
  | Throw _ => rootNode tree = null \/ farChildOnPath (rootNode tree) q 0 = true
  end.
Proof.
  intros Hk. unfold getNearestNeighbours.
  destruct (rootNode tree) as [|p rect l r] eqn:Er.
  - cbn. now left.
  - pose proof (search_no_room q k (Node p rect l r) Hk 0%nat c ltac:(discriminate))
      as H.
    destruct (getNearestNeighbours_ (Node p rect l r) q 0 [] k c)
      as [[rs c']|err]; cbn [bind fst snd].
    + destruct H as [-> H]. reflexivity.
    + now right.
Qed.

Lemma C3_k_below_one_witness :
  match getNearestNeighbours (fst (new_KDTree [mkPoint 0 0; mkPoint 1 0]))
          (mkPoint 0 0) 0 (Some []) with
  | Ok (pts, _) => pts = []
  | Throw _ =>
      rootNode (fst (new_KDTree [mkPoint 0 0; mkPoint 1 0])) = null \/
      farChildOnPath (rootNode (fst (new_KDTree [mkPoint 0 0; mkPoint 1 0])))
        (mkPoint 0 0) 0 = true
  end.
Proof.
  apply (C3_k_below_one (fst (new_KDTree [mkPoint 0 0; mkPoint 1 0]))
           (mkPoint 0 0) 0 (Some [])).
  lia.
Defined.

(** C3 as stated fails: with [k = 0] and with [k = -1] on the tree of the
    two points (0,0) and (1,0), queried at (0,0), the call returns the
    empty array, an ordinary result; no error is reported. *)
Lemma C3_no_invalid_argument_counterexample :
  getNearestNeighbours (fst (new_KDTree [mkPoint 0 0; mkPoint 1 0])) (mkPoint 0 0) 0 (Some [])
  = Ok ([], Some [mkPoint 1 0; mkPoint 0 0]) /\
  getNearestNeighbours (fst (new_KDTree [mkPoint 0 0; mkPoint 1 0])) (mkPoint 0 0) (-1) None
  = Ok ([], None).
Proof. split; reflexivity. Qed.

(** ** Construction (C4, C7, C8, C10) *)

Lemma createKDTree_array (points : list Point) (depth : nat) (rect : Rect) :
  snd (createKDTree_ points depth rect)
  = Array_sort (compareOnAxis (depth mod K)) points.
Proof.
  destruct points as [|p0 ps].
  - now rewrite createKDTree__equation_1.
  - now rewrite createKDTree__equation_2.
Qed.

(** C4, as amended.  Construction sorts the caller's array in place: when
    [new KDTree(points)] returns, the array holds the same points, stably
    sorted ascending by [x].  It is left as it was when it was already
    sorted by [x]. *)
Theorem C4_input_sorted_in_place (points : list Point) :
  snd (new_KDTree points) = Array_sort (compareOnAxis AXIS_X) points /\
  Permutation points (snd (new_KDTree points)) /\
  StronglySorted (fun a b => x a <= x b) (snd (new_KDTree points)) /\
  (StronglySorted (fun a b => x a <= x b) points -> snd (new_KDTree points) = points).
Proof.
  assert (E : snd (new_KDTree points) = Array_sort (compareOnAxis AXIS_X) points).
  { unfold new_KDTree. cbn [snd]. now rewrite createKDTree_array. }
  rewrite E. split; [reflexivity|]. split; [apply Array_sort_perm|]. split.
  - apply (Array_sort_sorted (coord AXIS_X) (compareOnAxis AXIS_X)
             (compareOnAxis_key AXIS_X)).
  - apply (Array_sort_sorted_id (coord AXIS_X) (compareOnAxis AXIS_X)
             (compareOnAxis_key AXIS_X)).
Qed.

(** C4 as stated fails: the array [(1,0); (0,0)] is [(0,0); (1,0)] after the
    tree was built from it; and of [(0,2); (0,1)], whose points are equal on
    [x], only the copies made for the children are sorted by [y]. *)
Lemma C4_input_reordered_counterexample :
  snd (new_KDTree [mkPoint 1 0; mkPoint 0 0]) = [mkPoint 0 0; mkPoint 1 0] /\
  [mkPoint 0 0; mkPoint 1 0] <> [mkPoint 1 0; mkPoint 0 0] /\
  snd (new_KDTree [mkPoint 0 2; mkPoint 0 1]) = [mkPoint 0 2; mkPoint 0 1].
Proof. split; [reflexivity|]. split; [discriminate | reflexivity]. Qed.

Lemma fold_min_out (l : list Z) (m a : Z) :
  fold_left Z.min l (Z.min m a) = Z.min m (fold_left Z.min l a).
Proof.
  revert a. induction l as [|h t IH]; intros a; simpl; [reflexivity|].
  rewrite <- IH. f_equal. lia.
Qed.

Lemma fold_max_out (l : list Z) (m a : Z) :
  fold_left Z.max l (Z.max m a) = Z.max m (fold_left Z.max l a).
Proof.
  revert a. induction l as [|h t IH]; intros a; simpl; [reflexivity|].
  rewrite <- IH. f_equal. lia.
Qed.

Lemma fold_min_le (l : list Z) (a : Z) : fold_left Z.min l a <= a.
Proof.
  revert a. induction l as [|h t IH]; intros a; simpl; [lia|].
  specialize (IH (Z.min a h)). lia.
Qed.

Lemma fold_max_ge (l : list Z) (a : Z) : a <= fold_left Z.max l a.
Proof.
  revert a. induction l as [|h t IH]; intros a; simpl; [lia|].
  specialize (IH (Z.max a h)). lia.
Qed.

Lemma computeBoundingRect_fold (points : list Point) (r : Rect) :
  fold_left extendBoundingRect points r
  = {| minX := fold_left Z.min (map x points) (minX r);
       maxX := fold_left Z.max (map x points) (maxX r);
       minY := fold_left Z.min (map y points) (minY r);
       maxY := fold_left Z.max (map y points) (maxY r) |}.
Proof.
  revert r. induction points as [|p ps IH]; intros r; simpl.
  - now destruct r.
  - rewrite IH. reflexivity.
Qed.

(** The root rectangle of every non-empty tree: the bounding rectangle of
    the points, each bound capped by the 32-bit value the loop of lines
    24-36 starts from. *)
Lemma root_rect_exact (p0 : Point) (ps : list Point) :
  rectOf (rootNode (fst (new_KDTree (p0 :: ps))))
  = Some {| minX := Z.min INT_MAX (minX (boundingBox p0 ps));
            maxX := Z.max INT_MIN (maxX (boundingBox p0 ps));
            minY := Z.min INT_MAX (minY (boundingBox p0 ps));
            maxY := Z.max INT_MIN (maxY (boundingBox p0 ps)) |}.
Proof.
  destruct (createKDTree_invariants (length (p0 :: ps)) (p0 :: ps) 0%nat
              (computeBoundingRect (p0 :: ps)) (le_n _)
              (computeBoundingRect_contains (p0 :: ps))) as (_ & _ & N & _).
  destruct (N ltac:(discriminate)) as [E _].
  unfold new_KDTree. cbn [fst rootNode]. rewrite E. f_equal.
  unfold computeBoundingRect, boundingBox. rewrite computeBoundingRect_fold.
  cbn [minX maxX minY maxY initialBoundingRect map fold_left].
  now rewrite !fold_min_out, !fold_max_out.
Qed.

(** It is the bounding rectangle when the first point is within the 32-bit
    bounds. *)
Lemma root_rect_in_range (p0 : Point) (ps : list Point) :
  INT_MIN <= x p0 <= INT_MAX -> INT_MIN <= y p0 <= INT_MAX ->
  rectOf (rootNode (fst (new_KDTree (p0 :: ps)))) = Some (boundingBox p0 ps).
Proof.
  intros Hx Hy. rewrite root_rect_exact. unfold boundingBox.
  cbn [minX maxX minY maxY].
  pose proof (fold_min_le (map x ps) (x p0)).
  pose proof (fold_max_ge (map x ps) (x p0)).
  pose proof (fold_min_le (map y ps) (y p0)).
  pose proof (fold_max_ge (map y ps) (y p0)).
  f_equal. f_equal; lia.
Qed.

(** C7, evaluated on the source.  For the one-point array [(3000000000, 5)]
    the root rectangle has [minX = 2147483647], the value the loop starts
    from, where the bounding rectangle of the points has 3000000000. *)
Theorem C7_root_rect_sentinel :
  rectOf (rootNode (fst (new_KDTree [mkPoint 3000000000 5])))
  = Some (mkRect 2147483647 3000000000 5 5) /\
  boundingBox (mkPoint 3000000000 5) [] = mkRect 3000000000 3000000000 5 5.
Proof. split; reflexivity. Qed.

(** C8.  In the tree built from any array, at every node each existing
    child's rectangle is the node's rectangle with the maximum (left child)
    or the minimum (right child) on the node's splitting axis replaced by
    the coordinate of the node's point, and lies within the node's rectangle
    by the four bound comparisons. *)
Theorem C8_child_rectangles (points : list Point) :
  rectsNested 0 (rootNode (fst (new_KDTree points))).
Proof.
  apply wellFormed_rectsNested.
  now destruct (new_KDTree_wellFormed points) as (Hwf & _).
Qed.

(** C10.  [createKDTree_] is a total function, defined by recursion on the
    length of its array.  On the empty array it returns [null]; on any
    other it recurses on the slice before the median index and on the slice
    after it, which leave out the median element and are strictly shorter
    than the array. *)
Theorem C10_build_recursion (points : list Point) (depth : nat) (rect : Rect) :
  match points with
  | [] => createKDTree_ points depth rect = (null, [])
  | _ :: _ =>
      let axis := (depth mod K)%nat in
      let sorted := Array_sort (compareOnAxis axis) points in
      let medianIndex := medianIndexOf sorted in
      let before := slice 0 medianIndex sorted in
      let after := slice_from (medianIndex + 1) sorted in
      (length before < length points)%nat /\
      (length after < length points)%nat /\
      (length before + 1 + length after = length points)%nat /\
      exists pivot,
        nth_error sorted medianIndex = Some pivot /\
        createKDTree_ points depth rect
        = (Node pivot rect
             (fst (createKDTree_ before (depth + 1)
                     (leftChildBoundingRect axis rect pivot)))
             (fst (createKDTree_ after (depth + 1)
                     (rightChildBoundingRect axis rect pivot))),
           sorted)
  end.
Proof.
  destruct points as [|p0 ps]; [apply createKDTree__equation_1|].
  intros axis sorted medianIndex before after.
  assert (Hlen : length sorted = length (p0 :: ps))
    by apply Array_sort_length.
  assert (Hm : (medianIndex < length sorted)%nat).
  { apply medianIndex_lt. intros E. rewrite E in Hlen. discriminate. }
  pose proof (nth_split_slices sorted medianIndex p0 Hm) as Hsplit.
  fold before after in Hsplit.
  assert (Hsum : (length before + 1 + length after = length sorted)%nat).
  { pose proof (f_equal (@length Point) Hsplit) as HL.
    rewrite length_app in HL. cbn [length] in HL. lia. }
  rewrite <- Hlen.
  split; [lia|]. split; [lia|]. split; [exact Hsum|].
  exists (nth medianIndex sorted p0). split.
  - now apply nth_error_nth'.
  - now rewrite createKDTree__equation_2.
Qed.

(** ** Insertion into the result list (C6) *)

(** C6, as amended.  For a result list sorted ascending by distance with at
    most [k] entries, [insertResult_] places the new entry immediately after
    the first entry, scanning back from the worst, whose distance is
    strictly smaller than the new one (at the front when there is none),
    which puts it before every entry at the same distance; it then drops the
    last entry if the list has more than [k] entries.  The list is again
    sorted ascending by distance and has at most [k] entries. *)
Theorem C6_insert_result (results : list SearchResult) (insertNode : SearchResult)
  (k : Z) :
  sortedByDistance results ->
  Z.of_nat (length results) <= k ->
  exists pre post,
    results = pre ++ post /\
    (pre = [] \/
     exists pre' a, pre = pre' ++ [a] /\ distance a < distance insertNode) /\
    Forall (fun b => distance insertNode <= distance b) post /\
    insertResult_ results insertNode k
    = (if Z.of_nat (length results) + 1 >? k
       then removelast (pre ++ insertNode :: post)
       else pre ++ insertNode :: post) /\
    sortedByDistance (insertResult_ results insertNode k) /\
    Z.of_nat (length (insertResult_ results insertNode k)) <= k.
Proof.
  intros Hs Hk.
  destruct (placed_split results insertNode) as (pre & post & Hrs & Hpl & Hpre & Hpost).
  exists pre, post. split; [exact Hrs|]. split; [exact Hpre|]. split; [exact Hpost|].
  split; [|split].
  - rewrite insertResult_unfold, Hpl, Nat2Z.inj_succ. unfold Z.succ. reflexivity.
  - now apply insertResult_sorted.
  - now apply insertResult_length.
Qed.

Lemma C6_insert_result_witness :
  exists pre post,
    [mkResult (leaf 1 0) 1; mkResult (leaf 0 2) 4] = pre ++ post /\
    (pre = [] \/
     exists pre' a, pre = pre' ++ [a] /\
                    distance a < distance (mkResult (leaf 2 0) 4)) /\
    Forall (fun b => distance (mkResult (leaf 2 0) 4) <= distance b) post /\
    insertResult_ [mkResult (leaf 1 0) 1; mkResult (leaf 0 2) 4] (mkResult (leaf 2 0) 4) 2
    = (if Z.of_nat (length [mkResult (leaf 1 0) 1; mkResult (leaf 0 2) 4]) + 1 >? 2
       then removelast (pre ++ mkResult (leaf 2 0) 4 :: post)
       else pre ++ mkResult (leaf 2 0) 4 :: post) /\
    sortedByDistance
      (insertResult_ [mkResult (leaf 1 0) 1; mkResult (leaf 0 2) 4]
         (mkResult (leaf 2 0) 4) 2) /\
    Z.of_nat (length (insertResult_ [mkResult (leaf 1 0) 1; mkResult (leaf 0 2) 4]
                        (mkResult (leaf 2 0) 4) 2)) <= 2.
Proof.
  apply (C6_insert_result [mkResult (leaf 1 0) 1; mkResult (leaf 0 2) 4]
           (mkResult (leaf 2 0) 4) 2).
  - repeat constructor; simpl; lia.
  - simpl. lia.
Defined.

(** C6 as stated fails on equal distances.  The list holds the points
    (1,0) and (0,2) at squared distances 1 and 4 from the origin and is full
    ([k = 2]); the point (2,0), at distance 4, is inserted.  The source puts
    it before (0,2), which is then dropped; placed after the first entry
    whose distance is at most 4, it would itself be dropped. *)
Lemma C6_equal_distance_counterexample :
  insertResult_ [mkResult (leaf 1 0) 1; mkResult (leaf 0 2) 4] (mkResult (leaf 2 0) 4) 2
  = [mkResult (leaf 1 0) 1; mkResult (leaf 2 0) 4] /\
  insertResultSpec [mkResult (leaf 1 0) 1; mkResult (leaf 0 2) 4] (mkResult (leaf 2 0) 4) 2
  = [mkResult (leaf 1 0) 1; mkResult (leaf 0 2) 4] /\
  insertResult_ [mkResult (leaf 1 0) 1; mkResult (leaf 0 2) 4] (mkResult (leaf 2 0) 4) 2
  <> insertResultSpec [mkResult (leaf 1 0) 1; mkResult (leaf 0 2) 4] (mkResult (leaf 2 0) 4) 2.
Proof. split; [reflexivity|]. split; [reflexivity | discriminate]. Qed.

(** * Further properties of the construction *)

(** X1.  The tree built from an array stores exactly the points of the
    array, each as often as the array has it. *)
Theorem X1_tree_stores_input (points : list Point) :
  Permutation points (pointsOf (rootNode (fst (new_KDTree points)))).
Proof. now destruct (new_KDTree_wellFormed points) as (_ & HP & _). Qed.

Lemma in_leftRect_le (axis : nat) (rect : Rect) (p a : Point) :
  (axis = 0 \/ axis = 1)%nat ->
  rectContainsPoint (leftChildBoundingRect axis rect p) a ->
  coord axis a <= coord axis p.
Proof.
  unfold rectContainsPoint, leftChildBoundingRect, coord.
  intros [-> | ->] (H1 & H2 & H3 & H4); simpl in *; lia.
Qed.

Lemma in_rightRect_ge (axis : nat) (rect : Rect) (p a : Point) :
  (axis = 0 \/ axis = 1)%nat ->
  rectContainsPoint (rightChildBoundingRect axis rect p) a ->
  coord axis p <= coord axis a.
Proof.
  unfold rectContainsPoint, rightChildBoundingRect, coord.
  intros [-> | ->] (H1 & H2 & H3 & H4); simpl in *; lia.
Qed.

Lemma wellFormed_splitOrdered (t : KDTreeNode) :
  forall depth, wellFormed depth t -> splitOrdered depth t.
Proof.
  induction t as [|p rect l IHl r IHr]; intros depth;
    cbn [wellFormed splitOrdered]; [trivial|].
  intros (_ & Fl & Fr & _ & _ & Wl & Wr).
  pose proof (axis_cases depth) as Hax.
  split; [|split; [|split; auto]].
  - eapply Forall_impl; [|exact Fl]. intros a. now apply in_leftRect_le.
  - eapply Forall_impl; [|exact Fr]. intros a. now apply in_rightRect_ge.
Qed.

(** X2.  In the tree built from any array, at every node the points of the
    left subtree are not larger than the node's point on the node's
    splitting axis ([x] at even depth, [y] at odd depth), and the points of
    the right subtree are not smaller. *)
Theorem X2_split_order (points : list Point) :
  splitOrdered 0 (rootNode (fst (new_KDTree points))).
Proof.
  apply wellFormed_splitOrdered.
  now destruct (new_KDTree_wellFormed points) as (Hwf & _).
Qed.

Lemma rectContainsRect_point (outer inner : Rect) (a : Point) :
  rectContainsRect outer inner -> rectContainsPoint inner a ->
  rectContainsPoint outer a.
Proof.
  unfold rectContainsRect, rectContainsPoint.
  intros (H1 & H2 & H3 & H4) (G1 & G2 & G3 & G4). repeat split; lia.
Qed.

Lemma leftRect_inside (axis : nat) (rect : Rect) (p : Point) :
  (axis = 0 \/ axis = 1)%nat -> rectContainsPoint rect p ->
  rectContainsRect rect (leftChildBoundingRect axis rect p).
Proof.
  unfold rectContainsRect, rectContainsPoint, leftChildBoundingRect.
  intros [-> | ->] (H1 & H2 & H3 & H4); simpl; repeat split; lia.
Qed.

Lemma rightRect_inside (axis : nat) (rect : Rect) (p : Point) :
  (axis = 0 \/ axis = 1)%nat -> rectContainsPoint rect p ->
  rectContainsRect rect (rightChildBoundingRect axis rect p).
Proof.
  unfold rectContainsRect, rectContainsPoint, rightChildBoundingRect.
  intros [-> | ->] (H1 & H2 & H3 & H4); simpl; repeat split; lia.
Qed.

Lemma wellFormed_rectsBound (t : KDTreeNode) :
  forall depth, wellFormed depth t -> rectsBound t.
Proof.
  induction t as [|p rect l IHl r IHr]; intros depth;
    cbn [wellFormed rectsBound]; [trivial|].
  intros (Hp & Fl & Fr & _ & _ & Wl & Wr).
  pose proof (axis_cases depth) as Hax.
  split; [|split; eauto].
  cbn [pointsOf]. constructor; [exact Hp|]. apply Forall_app. split.
  - eapply Forall_impl; [|exact Fl]. intros a.
    apply rectContainsRect_point. now apply leftRect_inside.
  - eapply Forall_impl; [|exact Fr]. intros a.
    apply rectContainsRect_point. now apply rightRect_inside.
Qed.

(** X3.  In the tree built from any array, the rectangle of every node
    bounds all points of the subtree rooted at that node (the node's own
    point included), whatever the coordinates are. *)
Theorem X3_rect_bounds_subtree (points : list Point) :
  rectsBound (rootNode (fst (new_KDTree points))).
Proof.
  apply (wellFormed_rectsBound _ 0%nat).
  now destruct (new_KDTree_wellFormed points) as (Hwf & _).
Qed.

Lemma balancedHeight_mono (a b : nat) :
  (a <= b)%nat -> (balancedHeight a <= balancedHeight b)%nat.
Proof.
  intros H. destruct a as [|a]; [simpl; lia|].
  destruct b as [|b]; [lia|]. unfold balancedHeight.
  apply le_n_S, Nat.log2_le_mono, H.
Qed.

Lemma balancedHeight_half (n : nat) :
  (0 < n)%nat -> S (balancedHeight (n / 2)) = balancedHeight n.
Proof.
  intros Hn. pose proof (Nat.div_mod_eq n 2) as Hdm.
  pose proof (Nat.mod_upper_bound n 2 ltac:(lia)) as Hm.
  assert (Hbn : balancedHeight n = S (Nat.log2 n))
    by (destruct n; [lia | reflexivity]).
  rewrite Hbn. f_equal.
  destruct (n / 2)%nat as [|h] eqn:Eh.
  - assert (n = 1%nat) as -> by lia. reflexivity.
  - change (balancedHeight (S h)) with (S (Nat.log2 (S h))).
    destruct (Nat.eq_dec (n mod 2) 0) as [E0 | E1].
    + rewrite E0, Nat.add_0_r in Hdm. rewrite Hdm.
      now rewrite Nat.log2_double by lia.
    + assert (E : (n mod 2 = 1)%nat) by lia.
      rewrite E in Hdm. rewrite Hdm.
      now rewrite Nat.log2_succ_double by lia.
Qed.

Lemma createKDTree_shape (n : nat) :
  forall points depth rect,
    length points = n ->
    let t := fst (createKDTree_ points depth rect) in
    size t = n /\ balanced t /\ height t = balancedHeight n.
Proof.
  induction n as [n IH] using lt_wf_ind. intros points depth rect Hlen.
  destruct points as [|p0 ps].
  - rewrite createKDTree__equation_1. subst n. cbn. auto.
  - rewrite createKDTree__equation_2. cbv zeta. cbn [fst].
    set (sorted := Array_sort (compareOnAxis (depth mod K)) (p0 :: ps)).
    assert (Hslen : length sorted = n)
      by (unfold sorted; now rewrite Array_sort_length).
    set (m := medianIndexOf sorted).
    assert (Hm : m = (n / 2)%nat) by (unfold m, medianIndexOf; now rewrite Hslen).
    assert (Hn : (0 < n)%nat) by (rewrite <- Hlen; simpl; lia).
    pose proof (Nat.div_mod_eq n 2) as Hdm.
    pose proof (Nat.mod_upper_bound n 2 ltac:(lia)) as Hmod.
    assert (Hb : length (slice 0 m sorted) = (n / 2)%nat).
    { unfold slice. rewrite skipn_O, length_firstn. lia. }
    assert (Ha : length (slice_from (m + 1) sorted) = (n - 1 - n / 2)%nat).
    { unfold slice_from. rewrite length_skipn. lia. }
    destruct (IH (n / 2)%nat ltac:(lia) _ (depth + 1)%nat
                (leftChildBoundingRect (depth mod K) rect (nth m sorted p0)) Hb)
      as (Sl & Bl & Hl).
    destruct (IH (n - 1 - n / 2)%nat ltac:(lia) _ (depth + 1)%nat
                (rightChildBoundingRect (depth mod K) rect (nth m sorted p0)) Ha)
      as (Sr & Br & Hr).
    split; [|split].
    + unfold size in *. cbn [pointsOf length]. rewrite length_app, Sl, Sr. lia.
    + cbn [balanced]. rewrite Sl, Sr. repeat split; try assumption; lia.
    + cbn [height]. rewrite Hl, Hr.
      rewrite Nat.max_l by (apply balancedHeight_mono; lia).
      now apply balancedHeight_half.
Qed.

(** X4.  The tree built from [n] points is balanced: at every node the left
    subtree holds as many points as the right one or one more, and the
    height of the tree is [floor (log2 n) + 1] (0 for the empty array). *)
Theorem X4_tree_balanced (points : list Point) :
  balanced (rootNode (fst (new_KDTree points))) /\
  height (rootNode (fst (new_KDTree points))) = balancedHeight (length points).
Proof.
  unfold new_KDTree. cbn [fst rootNode].
  destruct (createKDTree_shape (length points) points 0%nat
              (computeBoundingRect points) eq_refl) as (_ & B & H).
  now split.
Qed.

Lemma fold_min_perm (l1 l2 : list Z) :
  Permutation l1 l2 -> forall a, fold_left Z.min l1 a = fold_left Z.min l2 a.
Proof.
  induction 1 as [|v l l' _ IH|v w l|l l' l'' _ IH1 _ IH2]; intros a; simpl.
  - reflexivity.
  - apply IH.
  - f_equal. lia.
  - now rewrite IH1.
Qed.

Lemma fold_max_perm (l1 l2 : list Z) :
  Permutation l1 l2 -> forall a, fold_left Z.max l1 a = fold_left Z.max l2 a.
Proof.
  induction 1 as [|v l l' _ IH|v w l|l l' l'' _ IH1 _ IH2]; intros a; simpl.
  - reflexivity.
  - apply IH.
  - f_equal. lia.
  - now rewrite IH1.
Qed.

Lemma computeBoundingRect_perm (l1 l2 : list Point) :
  Permutation l1 l2 -> computeBoundingRect l1 = computeBoundingRect l2.
Proof.
  intros HP. unfold computeBoundingRect. rewrite !computeBoundingRect_fold.
  rewrite (fold_min_perm (map x l1) (map x l2)) by now apply Permutation_map.
  rewrite (fold_max_perm (map x l1) (map x l2)) by now apply Permutation_map.
  rewrite (fold_min_perm (map y l1) (map y l2)) by now apply Permutation_map.
  rewrite (fold_max_perm (map y l1) (map y l2)) by now apply Permutation_map.
  reflexivity.
Qed.

(** [createKDTree_] sees its array only through the sorted array. *)
Lemma createKDTree_of_sorted (points : list Point) (depth : nat) (rect : Rect) :
  createKDTree_ (Array_sort (compareOnAxis (depth mod K)) points) depth rect
  = createKDTree_ points depth rect.
Proof.
  destruct points as [|p0 ps]; [reflexivity|].
  set (cmp := compareOnAxis (depth mod K)).
  assert (Eid : Array_sort cmp (Array_sort cmp (p0 :: ps)) = Array_sort cmp (p0 :: ps)).
  { apply (Array_sort_sorted_id (coord (depth mod K)) cmp (compareOnAxis_key _)).
    apply (Array_sort_sorted (coord (depth mod K)) cmp (compareOnAxis_key _)). }
  assert (Hlen : length (Array_sort cmp (p0 :: ps)) = S (length ps))
    by now rewrite Array_sort_length.
  destruct (Array_sort cmp (p0 :: ps)) as [|s0 ss] eqn:Es; [discriminate|].
  rewrite !createKDTree__equation_2. cbv zeta. fold cmp. rewrite Eid, Es.
  assert (Hm : (medianIndexOf (s0 :: ss) < length (s0 :: ss))%nat)
    by (apply medianIndex_lt; discriminate).
  rewrite (nth_indep (s0 :: ss) s0 p0 Hm). reflexivity.
Qed.

(** X5.  Building a second tree from the array as the first construction
    left it gives the same tree and leaves the array as it is: the in-place
    sort is not seen by a later construction from the same array. *)
Theorem X5_rebuild_from_sorted_array (points : list Point) :
  new_KDTree (snd (new_KDTree points)) = new_KDTree points.
Proof.
  unfold new_KDTree. cbn [snd fst].
  set (R := computeBoundingRect points).
  assert (H : createKDTree_ (snd (createKDTree_ points 0 R)) 0
                (computeBoundingRect (snd (createKDTree_ points 0 R)))
              = createKDTree_ points 0 R).
  { rewrite createKDTree_array.
    rewrite <- (computeBoundingRect_perm points) by apply Array_sort_perm.
    apply createKDTree_of_sorted. }
  rewrite H. reflexivity.
Qed.

(** * Further properties of the search *)

(** X6.  [getSquaredEuclidianDistance] is symmetric in its two points, never
    negative, and zero exactly when the two points have the same
    coordinates. *)
Theorem X6_squared_distance (x1 y1 x2 y2 : Z) :
  getSquaredEuclidianDistance x1 y1 x2 y2 = getSquaredEuclidianDistance x2 y2 x1 y1 /\
  0 <= getSquaredEuclidianDistance x1 y1 x2 y2 /\
  (getSquaredEuclidianDistance x1 y1 x2 y2 = 0 <-> x1 = x2 /\ y1 = y2).
Proof.
  unfold getSquaredEuclidianDistance. cbv zeta.
  pose proof (Z.square_nonneg (x1 - x2)) as Hx.
  pose proof (Z.square_nonneg (y1 - y2)) as Hy.
  split; [ring|]. split; [lia|]. split.
  - intros H.
    assert (Hx0 : (x1 - x2) * (x1 - x2) = 0) by lia.
    assert (Hy0 : (y1 - y2) * (y1 - y2) = 0) by lia.
    apply Z.mul_eq_0 in Hx0, Hy0. lia.
  - intros [-> ->]. ring.
Qed.

(** X7.  On the tree built from a non-empty array of points with integer
    coordinates in the exact range, [getNearestNeighbour] returns, for every
    query point in that range, a point of the array that no point of the
    array is nearer to the query than. *)
Theorem X7_nearest_neighbour (points : list Point) (q : Point)
  (c : option (list Point)) :
  Forall inExactRange points -> inExactRange q ->
  points <> [] ->
  exists p' c',
    getNearestNeighbour (fst (new_KDTree points)) q c = Ok (Some p', c') /\
    In p' points /\
    forall p, In p points -> sqDist q p' <= sqDist q p.
Proof. intros _ _. apply nearest_found. Qed.

Lemma X7_nearest_neighbour_witness :
  exists p' c',
    getNearestNeighbour (fst (new_KDTree [mkPoint 0 0; mkPoint 4 1; mkPoint 2 7]))
      (mkPoint 3 3) None = Ok (Some p', c') /\
    In p' [mkPoint 0 0; mkPoint 4 1; mkPoint 2 7] /\
    forall p, In p [mkPoint 0 0; mkPoint 4 1; mkPoint 2 7] ->
              sqDist (mkPoint 3 3) p' <= sqDist (mkPoint 3 3) p.
Proof.
  apply (X7_nearest_neighbour [mkPoint 0 0; mkPoint 4 1; mkPoint 2 7]
           (mkPoint 3 3) None).
  - repeat constructor; cbv; discriminate.
  - repeat constructor; cbv; discriminate.
  - discriminate.
Defined.

(** X9.  On the tree built from a non-empty array of [n] points with
    integer coordinates in the exact range, for a query in that range and
    every [k >= 1], also above [n], [getNearestNeighbours] returns without
    error the [min k n] nearest of the points, sorted ascending by squared
    distance; with [k >= n] the result is the whole array, sorted by
    distance to the query. *)
Theorem X9_any_positive_k (points : list Point) (q : Point) (k : Z)
  (c : option (list Point)) :
  Forall inExactRange points -> inExactRange q ->
  points <> [] -> 1 <= k ->
  exists pts c',
    getNearestNeighbours (fst (new_KDTree points)) q k c = Ok (pts, c') /\
    Z.of_nat (length pts) = Z.min k (Z.of_nat (length points)) /\
    sortedByDistanceTo q pts /\
    (exists rest,
        Permutation points (pts ++ rest) /\
        forall a b, In a pts -> In b rest -> sqDist q a <= sqDist q b) /\
    (Z.of_nat (length points) <= k -> Permutation points pts).
Proof.
  intros _ _ Hne Hk.
  destruct (built_search points q k c Hne Hk) as (E & Hsel & Hnodes).
  set (t := rootNode (fst (new_KDTree points))) in *.
  set (st := searchWithSpecPruning t q 0 [] k c) in *.
  exists (map entryPoint (fst st)), (snd st).
  split.
  { unfold getNearestNeighbours. fold t. rewrite E. cbn [bind].
    rewrite extractPoints_ok by exact Hnodes. reflexivity. }
  destruct Hsel as (Hlen & Hsorted & rest & HP & Hord).
  split; [exact Hlen|]. split; [exact Hsorted|].
  split; [exists rest; now split|].
  intros Hall. pose proof (Permutation_length HP) as HL.
  rewrite length_app in HL.
  destruct rest as [|r rest]; [now rewrite app_nil_r in HP|].
  simpl in HL. lia.
Qed.

Lemma X9_any_positive_k_witness :
  exists pts c',
    getNearestNeighbours (fst (new_KDTree [mkPoint 0 0; mkPoint 4 1; mkPoint 2 7]))
      (mkPoint 3 3) 10 None = Ok (pts, c') /\
    Z.of_nat (length pts)
    = Z.min 10 (Z.of_nat (length [mkPoint 0 0; mkPoint 4 1; mkPoint 2 7])) /\
    sortedByDistanceTo (mkPoint 3 3) pts /\
    (exists rest,
        Permutation [mkPoint 0 0; mkPoint 4 1; mkPoint 2 7] (pts ++ rest) /\
        forall a b, In a pts -> In b rest ->
                    sqDist (mkPoint 3 3) a <= sqDist (mkPoint 3 3) b) /\
    (Z.of_nat (length [mkPoint 0 0; mkPoint 4 1; mkPoint 2 7]) <= 10 ->
     Permutation [mkPoint 0 0; mkPoint 4 1; mkPoint 2 7] pts).
Proof.
  apply (X9_any_positive_k [mkPoint 0 0; mkPoint 4 1; mkPoint 2 7]
           (mkPoint 3 3) 10 None).
  - repeat constructor; cbv; discriminate.
  - repeat constructor; cbv; discriminate.
  - discriminate.
  - lia.
Defined.

(** X10.  [getNearestNeighbour] is the first point of
    [getNearestNeighbours] with [maxResults = 1], on the tree built from any
    array: [null] for an empty result, the same error and the same visited
    points otherwise. *)
Theorem X10_nearest_is_first_of_one (points : list Point) (q : Point)
  (c : option (list Point)) :
  getNearestNeighbour (fst (new_KDTree points)) q c
  = (r <- getNearestNeighbours (fst (new_KDTree points)) q 1 c ;;
     Ok (hd_error (fst r), snd r)).
Proof.
  destruct points as [|p0 ps]; [reflexivity|].
  destruct (built_search (p0 :: ps) q 1 c ltac:(discriminate) ltac:(lia))
    as (E & _ & Hnodes).
  unfold getNearestNeighbour, getNearestNeighbours.
  set (t := rootNode (fst (new_KDTree (p0 :: ps)))) in *.
  rewrite E. cbn [bind]. rewrite extractPoints_ok by exact Hnodes. cbn [bind fst snd].
  destruct (fst (searchWithSpecPruning t q 0 [] 1 c)) as [|e rs]; [reflexivity|].
  inversion Hnodes as [|? ? He _]; subst. rewrite He. reflexivity.
Qed.

Lemma insertResult_in (rs : list SearchResult) (e a : SearchResult) (k : Z) :
  In a (insertResult_ rs e k) -> a = e \/ In a rs.
Proof.
  intros Ha.
  assert (Hp : In a (placed rs e)).
  { rewrite insertResult_unfold in Ha.
    destruct (Z.of_nat (S (length rs)) >? k); [|exact Ha].
    destruct (exists_last (l := placed rs e)) as (init & w & Hw).
    - intros E. apply (f_equal (@length _)) in E.
      rewrite placed_length in E. discriminate.
    - rewrite Hw in Ha |- *. rewrite removelast_last in Ha.
      apply in_or_app. now left. }
  eapply Permutation_in in Hp; [|symmetry; apply placed_perm].
  destruct Hp as [<- | Hp]; auto.
Qed.

Lemma trace_framed (q : Point) (k : Z) (t : KDTreeNode) : traceFramed q k t.
Proof.
  induction t as [|p rect l0 IHl r0 IHr]; intros depth rs l; [reflexivity|].
  rewrite !search_node_unfold. cbv zeta. cbn [pushConsidered].
  set (axis := (depth mod K)%nat).
  assert (IHt : traceFramed q k (if coord axis q <? coord axis p then l0 else r0))
    by (destruct (coord axis q <? coord axis p); assumption).
  assert (IHo : traceFramed q k (if coord axis q <? coord axis p then r0 else l0))
    by (destruct (coord axis q <? coord axis p); assumption).
  assert (HPc : Permutation (pointsOf l0 ++ pointsOf r0)
                  (pointsOf (if coord axis q <? coord axis p then l0 else r0)
                   ++ pointsOf (if coord axis q <? coord axis p then r0 else l0)))
    by (destruct (coord axis q <? coord axis p);
        [reflexivity | apply Permutation_app_comm]).
  set (target := if coord axis q <? coord axis p then l0 else r0) in *.
  set (opposite := if coord axis q <? coord axis p then r0 else l0) in *.
  clearbody target opposite. clear IHl IHr.
  set (e := {| node := Node p rect l0 r0; distance := sqDist q p |}).
  set (rs1 := insertResult_ rs e k).
  assert (Hrs1 : forall a, In a rs1 ->
             In a rs \/ (entryPoint a = p /\ pointOf (node a) = Some (entryPoint a))).
  { intros a Ha. apply insertResult_in in Ha. destruct Ha as [-> | Ha]; auto. }
  (* the near child *)
  assert (Hnear :
    match (match target with
           | null => Ok (rs1, None)
           | Node _ _ _ _ => getNearestNeighbours_ target q (depth + 1) rs1 k None
           end) with
    | Throw err =>
        match target with
        | null => Ok (rs1, Some (l ++ [p]))
        | Node _ _ _ _ =>
            getNearestNeighbours_ target q (depth + 1) rs1 k (Some (l ++ [p]))
        end = Throw err
    | Ok (rs2, c0) =>
        c0 = None /\
        exists v1,
          match target with
          | null => Ok (rs1, Some (l ++ [p]))
          | Node _ _ _ _ =>
              getNearestNeighbours_ target q (depth + 1) rs1 k (Some (l ++ [p]))
          end = Ok (rs2, Some (l ++ p :: v1)) /\
          (forall a, In a rs2 ->
                     In a rs \/
                     (In (entryPoint a) (p :: v1) /\
                      pointOf (node a) = Some (entryPoint a))) /\
          exists rest, Permutation (pointsOf target) (v1 ++ rest)
    end).
  { destruct target as [|tp trect tl tr].
    - split; [reflexivity|]. exists []. split; [reflexivity|]. split.
      + intros a Ha. destruct (Hrs1 a Ha) as [? | [<- ?]]; [now left|].
        right. split; [now left | assumption].
      + exists []. reflexivity.
    - specialize (IHt (depth + 1)%nat rs1 (l ++ [p])).
      destruct (getNearestNeighbours_ (Node tp trect tl tr) q (depth + 1) rs1 k None)
        as [[rs2 c0]|err]; [|exact IHt].
      destruct IHt as (-> & v1 & E & _ & Hin & rest & HP).
      split; [reflexivity|]. exists v1. rewrite E, <- app_assoc.
      split; [reflexivity|]. split; [|now exists rest].
      intros a Ha. destruct (Hin a Ha) as [Ha1 | [Hv Hn]].
      + destruct (Hrs1 a Ha1) as [? | [<- ?]]; [now left|].
        right. split; [now left | assumption].
      + right. split; [now right | assumption]. }
  destruct (match target with
            | null => Ok (rs1, None)
            | Node _ _ _ _ => getNearestNeighbours_ target q (depth + 1) rs1 k None
            end) as [[rs2 c0]|err]; [|rewrite Hnear; reflexivity].
  destruct Hnear as (-> & v1 & E1 & Hin1 & rest1 & HP1).
  rewrite E1. cbn [bind fst snd]. clear E1 IHt.
  assert (Hskip : exists v,
             @Ok SearchState (rs2, Some (l ++ p :: v1)) = Ok (rs2, Some (l ++ v)) /\
             hd_error v = Some p /\
             (forall a, In a rs2 ->
                        In a rs \/
                        (In (entryPoint a) v /\ pointOf (node a) = Some (entryPoint a))) /\
             exists rest, Permutation (p :: pointsOf l0 ++ pointsOf r0) (v ++ rest)).
  { exists (p :: v1). split; [reflexivity|]. split; [reflexivity|].
    split; [exact Hin1|]. exists (rest1 ++ pointsOf opposite).
    rewrite HPc, HP1. simpl. now rewrite <- app_assoc. }
  destruct opposite as [|op orect ol or]; [split; [reflexivity | exact Hskip]|].
  destruct (lastEntry rs2) as [w|]; [|reflexivity].
  destruct (oppositeSquaredDist axis p q orect <=? distance w);
    [|split; [reflexivity | exact Hskip]].
  specialize (IHo (depth + 1)%nat rs2 (l ++ p :: v1)).
  destruct (getNearestNeighbours_ (Node op orect ol or) q (depth + 1) rs2 k None)
    as [[rs3 c0]|err]; [|exact IHo].
  destruct IHo as (-> & v2 & E2 & _ & Hin2 & rest2 & HP2).
  split; [reflexivity|]. exists (p :: v1 ++ v2). rewrite E2.
  split; [|split; [reflexivity|split]].
  - rewrite <- app_assoc. reflexivity.
  - intros a Ha. destruct (Hin2 a Ha) as [Ha2 | [Hv Hn]].
    + destruct (Hin1 a Ha2) as [? | [Hv Hn]]; [now left|].
      right. split; [|assumption].
      change (p :: v1 ++ v2) with ((p :: v1) ++ v2). apply in_or_app. now left.
    + right. split; [|assumption]. right. apply in_or_app. now right.
  - exists (rest1 ++ rest2). cbn [pointsOf]. rewrite HPc, HP1.
    set (po := pointsOf (Node op orect ol or)) in *. rewrite HP2.
    simpl. apply perm_skip. rewrite <- !app_assoc. apply Permutation_app_head.
    rewrite !app_assoc. apply Permutation_app_tail. apply Permutation_app_comm.
Qed.

(** X11.  Passing the array [opt_consideredPoints] to
    [getNearestNeighbours] changes neither the returned points nor an
    error.  The array keeps what it held and gets appended the points of the
    visited nodes: the root's first, no node of the tree more than once,
    every returned point among them. *)
Theorem X11_visited_points (tree : KDTree) (q : Point) (k : Z) (l : list Point) :
  match getNearestNeighbours tree q k None with
  | Throw e => getNearestNeighbours tree q k (Some l) = Throw e
  | Ok (pts, c0) =>
      c0 = None /\
      exists v,
        getNearestNeighbours tree q k (Some l) = Ok (pts, Some (l ++ v)) /\
        hd_error v = pointOf (rootNode tree) /\
        incl pts v /\
        exists rest, Permutation (pointsOf (rootNode tree)) (v ++ rest)
  end.
Proof.
  unfold getNearestNeighbours.
  pose proof (trace_framed q k (rootNode tree) 0%nat [] l) as H.
  destruct (getNearestNeighbours_ (rootNode tree) q 0 [] k None)
    as [[rs' c0]|err]; cbn [bind fst snd]; [|rewrite H; reflexivity].
  destruct H as (-> & v & E & Hhd & Hin & Hrest).
  assert (Hnodes : Forall (fun e => pointOf (node e) = Some (entryPoint e)) rs').
  { rewrite Forall_forall. intros a Ha.
    destruct (Hin a Ha) as [[] | [_ Hn]]. exact Hn. }
  rewrite extractPoints_ok by exact Hnodes. cbn [bind].
  split; [reflexivity|]. exists v. rewrite E. cbn [bind fst snd].
  rewrite extractPoints_ok by exact Hnodes. cbn [bind].
  split; [reflexivity|]. split; [exact Hhd|]. split; [|exact Hrest].
  intros pt Hpt. apply in_map_iff in Hpt. destruct Hpt as (a & <- & Ha).
  destruct (Hin a Ha) as [[] | [Hv _]]. exact Hv.
Qed.

(** X12.  Inserting into a list that is full ([k] entries or more) whose
    last entry is [w]: an entry farther than [w] leaves the list as it is;
    an entry not farther than [w] is put in and [w] is dropped, the other
    entries keeping their order. *)
Theorem X12_insert_into_full_list (results : list SearchResult)
  (insertNode w : SearchResult) (k : Z) :
  k <= Z.of_nat (length results) ->
  lastEntry results = Some w ->
  (distance w < distance insertNode ->
   insertResult_ results insertNode k = results) /\
  (distance insertNode <= distance w ->
   exists pre post,
     results = pre ++ post ++ [w] /\
     insertResult_ results insertNode k = pre ++ insertNode :: post).
Proof.
  intros Hk Hlast.
  assert (Hne : results <> []) by (intros ->; discriminate).
  destruct (lastEntry_nonempty results Hne) as (init & w' & -> & Hw').
  rewrite Hw' in Hlast. injection Hlast as ->.
  rewrite insertResult_unfold.
  destruct (Z.gtb_spec (Z.of_nat (S (length (init ++ [w])))) k) as [_ | Hc]; [|lia].
  rewrite placed_snoc.
  destruct (Z.gtb_spec (distance insertNode) (distance w)) as [Hgt | Hle]; split;
    try (intros; lia).
  - intros _. change [w; insertNode] with ([w] ++ [insertNode]).
    rewrite app_assoc. apply removelast_last.
  - intros _. rewrite removelast_last.
    destruct (placed_split init insertNode) as (pre & post & Hinit & Hpl & _).
    exists pre, post. rewrite Hpl, Hinit, <- app_assoc. now split.
Qed.

Lemma X12_insert_into_full_list_witness :
  (distance (mkResult (leaf 0 2) 4) < distance (mkResult (leaf 3 0) 9) ->
   insertResult_ [mkResult (leaf 1 0) 1; mkResult (leaf 0 2) 4]
     (mkResult (leaf 3 0) 9) 2
   = [mkResult (leaf 1 0) 1; mkResult (leaf 0 2) 4]) /\
  (distance (mkResult (leaf 3 0) 9) <= distance (mkResult (leaf 0 2) 4) ->
   exists pre post,
     [mkResult (leaf 1 0) 1; mkResult (leaf 0 2) 4]
     = pre ++ post ++ [mkResult (leaf 0 2) 4] /\
     insertResult_ [mkResult (leaf 1 0) 1; mkResult (leaf 0 2) 4]
       (mkResult (leaf 3 0) 9) 2
     = pre ++ mkResult (leaf 3 0) 9 :: post).
Proof.
  apply (X12_insert_into_full_list
           [mkResult (leaf 1 0) 1; mkResult (leaf 0 2) 4]
           (mkResult (leaf 3 0) 9) (mkResult (leaf 0 2) 4) 2).
  - simpl. lia.
  - reflexivity.
Defined.

Lemma scan_distances_perm (points1 points2 : list Point) (q : Point) (k : nat) :
  Permutation points1 points2 ->
  map (sqDist q) (bruteForce points1 q k) = map (sqDist q) (bruteForce points2 q k).
Proof.
  intros HP. unfold bruteForce. rewrite <- !firstn_map. f_equal.
  set (cmp := fun a b => sqDist q a - sqDist q b).
  apply sortedList_unique.
  - apply StronglySorted_map_key.
    apply (Array_sort_sorted (sqDist q) cmp (distance_cmp_key q)).
  - apply StronglySorted_map_key.
    apply (Array_sort_sorted (sqDist q) cmp (distance_cmp_key q)).
  - apply Permutation_map.
    rewrite <- (Array_sort_perm cmp points1), <- (Array_sort_perm cmp points2).
    exact HP.
Qed.

(** The distances of the points the search returns. *)
Lemma returned_distances (points : list Point) (q : Point) (k : nat)
  (c : option (list Point)) :
  (1 <= k <= length points)%nat ->
  exists pts c',
    getNearestNeighbours (fst (new_KDTree points)) q (Z.of_nat k) c = Ok (pts, c') /\
    map (sqDist q) pts = map (sqDist q) (bruteForce points q k).
Proof.
  intros [Hk1 Hk2].
  assert (Hne : points <> []) by (intros ->; simpl in Hk2; lia).
  destruct (built_search points q (Z.of_nat k) c Hne ltac:(lia)) as (E & Hsel & Hnodes).
  set (t := rootNode (fst (new_KDTree points))) in *.
  set (st := searchWithSpecPruning t q 0 [] (Z.of_nat k) c) in *.
  exists (map entryPoint (fst st)), (snd st). split.
  - unfold getNearestNeighbours. fold t. rewrite E. cbn [bind].
    rewrite extractPoints_ok by exact Hnodes. reflexivity.
  - now destruct (selection_agrees points q k _ Hk2 Hsel).
Qed.

(** X13.  Asking for more neighbours extends the answer: for
    [1 <= k1 <= k2 <= n] the squared distances of the [k1] points returned
    are the first [k1] of the squared distances of the [k2] points
    returned. *)
Theorem X13_more_neighbours_extend (points : list Point) (q : Point) (k1 k2 : nat)
  (c : option (list Point)) :
  (1 <= k1)%nat -> (k1 <= k2)%nat -> (k2 <= length points)%nat ->
  exists pts1 pts2 c1 c2,
    getNearestNeighbours (fst (new_KDTree points)) q (Z.of_nat k1) c = Ok (pts1, c1) /\
    getNearestNeighbours (fst (new_KDTree points)) q (Z.of_nat k2) c = Ok (pts2, c2) /\
    map (sqDist q) pts1 = firstn k1 (map (sqDist q) pts2).
Proof.
  intros H1 H12 H2.
  destruct (returned_distances points q k1 c ltac:(lia)) as (pts1 & c1 & E1 & D1).
  destruct (returned_distances points q k2 c ltac:(lia)) as (pts2 & c2 & E2 & D2).
  exists pts1, pts2, c1, c2. split; [exact E1|]. split; [exact E2|].
  rewrite D1, D2. unfold bruteForce. rewrite <- !firstn_map, firstn_firstn.
  now rewrite Nat.min_l by lia.
Qed.

Lemma X13_more_neighbours_extend_witness :
  exists pts1 pts2 c1 c2,
    getNearestNeighbours (fst (new_KDTree [mkPoint 0 0; mkPoint 4 1; mkPoint 2 7]))
      (mkPoint 3 3) (Z.of_nat 1) None = Ok (pts1, c1) /\
    getNearestNeighbours (fst (new_KDTree [mkPoint 0 0; mkPoint 4 1; mkPoint 2 7]))
      (mkPoint 3 3) (Z.of_nat 3) None = Ok (pts2, c2) /\
    map (sqDist (mkPoint 3 3)) pts1 = firstn 1 (map (sqDist (mkPoint 3 3)) pts2).
Proof.
  apply (X13_more_neighbours_extend [mkPoint 0 0; mkPoint 4 1; mkPoint 2 7]
           (mkPoint 3 3) 1 3 None); simpl; lia.
Defined.

(** X14.  For integer coordinates in the exact range, the squared distances
    returned do not depend on the order of the array the tree was built
    from: two arrays holding the same points give, for every query and every
    [k] from 1 to their length, results with the same distances. *)
Theorem X14_input_order_irrelevant (points1 points2 : list Point) (q : Point)
  (k : nat) (c : option (list Point)) :
  Forall inExactRange points1 -> inExactRange q ->
  Permutation points1 points2 ->
  (1 <= k <= length points1)%nat ->
  exists pts1 pts2 c1 c2,
    getNearestNeighbours (fst (new_KDTree points1)) q (Z.of_nat k) c = Ok (pts1, c1) /\
    getNearestNeighbours (fst (new_KDTree points2)) q (Z.of_nat k) c = Ok (pts2, c2) /\
    map (sqDist q) pts1 = map (sqDist q) pts2.
Proof.
  intros _ _ HP Hk. pose proof (Permutation_length HP) as HL.
  destruct (returned_distances points1 q k c Hk) as (pts1 & c1 & E1 & D1).
  destruct (returned_distances points2 q k c ltac:(lia)) as (pts2 & c2 & E2 & D2).
  exists pts1, pts2, c1, c2. split; [exact E1|]. split; [exact E2|].
  rewrite D1, D2. now apply scan_distances_perm.
Qed.

Lemma X14_input_order_irrelevant_witness :
  exists pts1 pts2 c1 c2,
    getNearestNeighbours (fst (new_KDTree [mkPoint 0 0; mkPoint 4 1; mkPoint 2 7]))
      (mkPoint 3 3) (Z.of_nat 2) None = Ok (pts1, c1) /\
    getNearestNeighbours (fst (new_KDTree [mkPoint 2 7; mkPoint 0 0; mkPoint 4 1]))
      (mkPoint 3 3) (Z.of_nat 2) None = Ok (pts2, c2) /\
    map (sqDist (mkPoint 3 3)) pts1 = map (sqDist (mkPoint 3 3)) pts2.
Proof.
  apply (X14_input_order_irrelevant
           [mkPoint 0 0; mkPoint 4 1; mkPoint 2 7]
           [mkPoint 2 7; mkPoint 0 0; mkPoint 4 1] (mkPoint 3 3) 2 None).
  - repeat constructor; cbv; discriminate.
  - repeat constructor; cbv; discriminate.
  - apply Permutation_sym.
    exact (Permutation_cons_append [mkPoint 0 0; mkPoint 4 1] (mkPoint 2 7)).
  - simpl. lia.
Defined.
